(** * ALEIS: anomaly detection, temporal features, validation and consolidation

    A shallow embedding of the analytic core of the ALEIS pipeline:

      - [analytics/anomaly_detection.py]   ([detect_anomalies])
      - [features/temporal_features.py]    ([temporal_concentration])
      - [validation/regional_consistency.py] ([check_region_coverage])
      - [main.py]                          ([run_aleis_pipeline])

    Numbers.  Python floats are modelled as exact real numbers extended with
    the three special values of IEEE arithmetic ([NaN], [+inf], [-inf]);
    rounding is not modelled.  The special values are there because the code
    depends on them: pandas' [Series.std] answers [NaN] on fewer than two
    observations, [0/0] is [NaN] in numpy, [NaN == 0] is false, and
    [np.nan_to_num] rewrites [NaN] into [0].

    Since a mean or a deviation of doubles is rounded, what is proved of
    [detect_anomalies] and [temporal_concentration] is stated so as not to
    depend on the digits of a reduction: relative to the test
    [Series.std() == 0] and to the scores [zscore] returns, whatever they
    are, or on inputs on which double arithmetic is exact too (a series of
    one element, a series that holds a [NaN], small integers). *)

From Stdlib Require Import String Ascii DecimalString.
From Stdlib Require Import Reals Lra Lia Bool ZArith List Permutation.
Import ListNotations.

Open Scope R_scope.

(** ** Floats with special values *)

Inductive float : Type :=
| Fin (r : R)
| PInf
| NInf
| NaN.

Definition Rltb (x y : R) : bool := if Rlt_dec x y then true else false.
Definition Reqb (x y : R) : bool := if Req_dec_T x y then true else false.

(** Largest finite double, the value [np.nan_to_num] substitutes for an
    infinity. *)
Definition DBL_MAX : R := (2 - / 2 ^ 52) * 2 ^ 1023.

Definition fopp (a : float) : float :=
  match a with
  | Fin x => Fin (- x)
  | PInf => NInf
  | NInf => PInf
  | NaN => NaN
  end.

Definition fadd (a b : float) : float :=
  match a, b with
  | NaN, _ | _, NaN => NaN
  | Fin x, Fin y => Fin (x + y)
  | PInf, NInf | NInf, PInf => NaN
  | PInf, _ | _, PInf => PInf
  | NInf, _ | _, NInf => NInf
  end.

Definition fsub (a b : float) : float := fadd a (fopp b).

(** Sign of a real as a float infinity: used for [x * inf] and [x / 0]. *)
Definition signed_inf (x : R) (pos : bool) : float :=
  if Reqb x 0 then NaN
  else if Bool.eqb (Rltb 0 x) pos then PInf else NInf.

Definition fmul (a b : float) : float :=
  match a, b with
  | NaN, _ | _, NaN => NaN
  | Fin x, Fin y => Fin (x * y)
  | Fin x, PInf | PInf, Fin x => signed_inf x true
  | Fin x, NInf | NInf, Fin x => signed_inf x false
  | PInf, PInf | NInf, NInf => PInf
  | PInf, NInf | NInf, PInf => NaN
  end.

(** numpy division: [0/0] and [inf/inf] are [NaN], [x/0] is a signed
    infinity, [x/inf] is [0]; no exception is raised. *)
Definition fdiv (a b : float) : float :=
  match a, b with
  | NaN, _ | _, NaN => NaN
  | Fin x, Fin y => if Reqb y 0 then signed_inf x true else Fin (x / y)
  | Fin _, PInf | Fin _, NInf => Fin 0
  | PInf, Fin y => if Rltb y 0 then NInf else PInf
  | NInf, Fin y => if Rltb y 0 then PInf else NInf
  | PInf, _ | NInf, _ => NaN
  end.

Definition fsqrt (a : float) : float :=
  match a with
  | Fin x => if Rltb x 0 then NaN else Fin (sqrt x)
  | PInf => PInf
  | NInf => NaN
  | NaN => NaN
  end.

(** [np.abs] *)
Definition fabs (a : float) : float :=
  match a with
  | Fin x => Fin (Rabs x)
  | PInf | NInf => PInf
  | NaN => NaN
  end.

(** [np.nan_to_num] with its default arguments. *)
Definition nan_to_num (a : float) : float :=
  match a with
  | Fin x => Fin x
  | PInf => Fin DBL_MAX
  | NInf => Fin (- DBL_MAX)
  | NaN => Fin 0
  end.

(** [a > b]; every comparison with [NaN] is false. *)
Definition fgtb (a b : float) : bool :=
  match a, b with
  | NaN, _ | _, NaN => false
  | Fin x, Fin y => Rltb y x
  | PInf, PInf => false
  | PInf, _ => true
  | Fin _, NInf => true
  | _, _ => false
  end.

(** [a == b]; [NaN] equals nothing, itself included. *)
Definition feqb (a b : float) : bool :=
  match a, b with
  | Fin x, Fin y => Reqb x y
  | PInf, PInf | NInf, NInf => true
  | _, _ => false
  end.

Definition isnan (a : float) : bool :=
  match a with NaN => true | _ => false end.

Definition of_nat (n : nat) : float := Fin (INR n).

(** ** Series reductions *)

Definition series := list float.

Definition fsum (s : series) : float := fold_left fadd s (Fin 0).

(** pandas reductions skip missing values ([skipna=True]). *)
Definition dropna (s : series) : series := filter (fun a => negb (isnan a)) s.

(** [Series.mean()] : the mean of the observations present, [NaN] when
    there is none. *)
Definition pd_mean (s : series) : float :=
  let v := dropna s in
  match v with
  | [] => NaN
  | _ => fdiv (fsum v) (of_nat (length v))
  end.

(** [Series.std()] : the sample standard deviation (ddof = 1) of the
    observations present, [NaN] when there are fewer than two. *)
Definition pd_std (s : series) : float :=
  let v := dropna s in
  let count := length v in
  if (count <=? 1)%nat then NaN
  else
    let avg := fdiv (fsum v) (of_nat count) in
    let sqr := map (fun x => fmul (fsub avg x) (fsub avg x)) v in
    fsqrt (fdiv (fsum sqr) (of_nat (count - 1))).

(** [ndarray.mean()] : no value is skipped; the empty mean is [0/0]. *)
Definition np_mean (s : series) : float := fdiv (fsum s) (of_nat (length s)).

(** [ndarray.std(ddof=0)] : the population standard deviation. *)
Definition np_std (s : series) : float :=
  let mn := np_mean s in
  fsqrt (np_mean (map (fun x => fmul (fsub x mn) (fsub x mn)) s)).

(** [scipy.stats.zscore(a)] with its defaults (axis 0, ddof 0). *)
Definition zscore (s : series) : series :=
  let mn := np_mean s in
  let sd := np_std s in
  map (fun x => fdiv (fsub x mn) sd) s.

(** ** analytics/anomaly_detection.py *)

Definition default_threshold : float := Fin 2.5.

Definition detect_anomalies (s : series) (threshold : float) : list bool :=
  if feqb (pd_std s) (Fin 0) then
    repeat false (length s)
  else
    let z := zscore s in
    map (fun zi => fgtb (fabs (nan_to_num zi)) threshold) z.

(** ** features/temporal_features.py *)

Definition temporal_concentration (s : series) : float :=
  let mu := pd_mean s in
  if feqb mu (Fin 0) then Fin 0
  else fdiv (pd_std s) mu.

(** ** Real-number statistics

    The textbook quantities on a list of reals, against which the float
    reductions above are characterised. *)

Fixpoint Rsum (xs : list R) : R :=
  match xs with
  | [] => 0
  | x :: xs' => x + Rsum xs'
  end.

Definition Rmean (xs : list R) : R := Rsum xs / INR (length xs).

(** Sum of squared deviations from the mean. *)
Definition sq_dev (xs : list R) : R :=
  Rsum (map (fun x => (x - Rmean xs) * (x - Rmean xs)) xs).

(** Population standard deviation: divisor [n]. *)
Definition pop_std (xs : list R) : R := sqrt (sq_dev xs / INR (length xs)).

(** Sample standard deviation: divisor [n - 1]. *)
Definition sample_std (xs : list R) : R :=
  sqrt (sq_dev xs / INR (length xs - 1)).

(** The standardized score of the [i]-th element as the code computes it:
    deviation from the mean over the population standard deviation, with
    numpy's division. *)
Definition std_score (xs : list R) (i : nat) : float :=
  fdiv (Fin (nth i xs 0 - Rmean xs)) (Fin (pop_std xs)).


(** The flag decision of section 4.5 on a score. *)
Definition flag_of_score (z threshold : float) : bool :=
  fgtb (fabs (nan_to_num z)) threshold.

(** ** Exceptions *)

Inductive exn : Type :=
| KeyError (key : string)
| TypeError
| ValueError
| Warning (msg : string)
| OtherError (msg : string).

(** A computation that returns or raises. *)
Definition result (A : Type) : Type := exn + A.

Definition ok {A} (a : A) : result A := inr a.
Definition raise {A} (e : exn) : result A := inl e.

Definition bindR {A B} (r : result A) (f : A -> result B) : result B :=
  match r with
  | inl e => inl e
  | inr a => f a
  end.

Declare Scope result_scope.
Delimit Scope result_scope with result.
Notation "x <- r ;; k" := (bindR r (fun x => k))
  (at level 61, r at next level, right associativity) : result_scope.

Fixpoint mapR {A B} (f : A -> result B) (l : list A) : result (list B) :=
  match l with
  | [] => ok []
  | a :: l' =>
      (b <- f a ;; bs <- mapR f l' ;; ok (b :: bs))%result
  end.

(** ** Tables

    A pandas [DataFrame] as its column labels and its rows.  A cell is a
    Python object of one of the kinds the pipeline stores; [None] and the
    float [NaN] are the two missing values. *)

Inductive cell : Type :=
| CNone
| CStr (s : string)
| CInt (z : Z)
| CFloat (x : float)
| CBool (b : bool).

Record DataFrame : Type := mkDataFrame {
  columns : list string;
  rows : list (list cell)
}.

(** [pd.DataFrame()] *)
Definition empty_frame : DataFrame := mkDataFrame [] [].

(** [df.empty] : no column or no row. *)
Definition is_empty (df : DataFrame) : bool :=
  match columns df, rows df with
  | [], _ | _, [] => true
  | _, _ => false
  end.

(** [pd.isna] *)
Definition isna (c : cell) : bool :=
  match c with
  | CNone | CFloat NaN => true
  | _ => false
  end.

(** The float a numeric reduction reads in a cell; a string is refused. *)
Definition to_float (c : cell) : result float :=
  match c with
  | CNone => ok NaN
  | CInt z => ok (Fin (IZR z))
  | CFloat x => ok x
  | CBool b => ok (Fin (if b then 1 else 0))
  | CStr _ => raise TypeError
  end.

(** Equality of two cells as values; in joins and groupings two missing
    values match each other. *)
Definition cell_eqb (a b : cell) : bool :=
  match a, b with
  | CStr s, CStr s' => String.eqb s s'
  | CInt z, CInt z' => Z.eqb z z'
  | CBool x, CBool y => Bool.eqb x y
  | CInt z, CFloat x | CFloat x, CInt z => feqb (Fin (IZR z)) x
  | CFloat x, CFloat y => feqb x y || (isnan x && isnan y)
  | CNone, _ | _, CNone => isna a && isna b
  | _, _ => false
  end.

(** Order used to sort join keys: numbers by value, strings
    lexicographically, missing values last.  (Cells of different kinds are
    not comparable in Python; they are ordered here by kind.) *)
Definition cell_leb (a b : cell) : bool :=
  if isna b then true
  else if isna a then false
  else
    match a, b with
    | CStr s, CStr s' => String.leb s s'
    | CInt z, CInt z' => Z.leb z z'
    | CBool x, CBool y => implb x y
    | CInt z, CFloat x => negb (fgtb (Fin (IZR z)) x)
    | CFloat x, CInt z => negb (fgtb x (Fin (IZR z)))
    | CFloat x, CFloat y => negb (fgtb x y)
    | (CBool _ | CInt _ | CFloat _), CStr _ => true
    | CBool _, (CInt _ | CFloat _) => true
    | _, _ => false
    end.

Fixpoint key_eqb (k1 k2 : list cell) : bool :=
  match k1, k2 with
  | [], [] => true
  | a :: k1', b :: k2' => cell_eqb a b && key_eqb k1' k2'
  | _, _ => false
  end.

Fixpoint key_leb (k1 k2 : list cell) : bool :=
  match k1, k2 with
  | [], _ => true
  | _ :: _, [] => false
  | a :: k1', b :: k2' =>
      if cell_eqb a b then key_leb k1' k2' else cell_leb a b
  end.

Fixpoint index_of (name : string) (cols : list string) : option nat :=
  match cols with
  | [] => None
  | c :: cs =>
      if String.eqb c name then Some 0%nat
      else option_map S (index_of name cs)
  end.

Definition has_column (name : string) (cols : list string) : bool :=
  existsb (String.eqb name) cols.

(** Position of a label, [KeyError] when the table has no such column. *)
Definition locate (cols : list string) (name : string) : result nat :=
  match index_of name cols with
  | Some i => ok i
  | None => raise (KeyError name)
  end.

(** [df[name]] *)
Definition get_column (df : DataFrame) (name : string) : result (list cell) :=
  (i <- locate (columns df) name ;;
   ok (map (fun r => nth i r CNone) (rows df)))%result.

(** Distinct values of a list of cells. *)
Fixpoint unique (l : list cell) : list cell :=
  match l with
  | [] => []
  | c :: l' => if existsb (cell_eqb c) l' then unique l' else c :: unique l'
  end.

(** [Series.nunique()] : the number of distinct values, missing ones
    excluded ([dropna=True]). *)
Definition nunique (col : list cell) : nat :=
  length (unique (filter (fun c => negb (isna c)) col)).

(** ** validation/regional_consistency.py *)

Definition check_region_coverage (df : DataFrame) (region_col : string)
  : result unit :=
  (col <- get_column df region_col ;;
   if (nunique col <? 1)%nat
   then raise (Warning "Low regional coverage detected")
   else ok tt)%result.


(** ** Joins ([pd.merge]) and the other table operations of [main.py] *)

Definition locate_all (cols names : list string) : result (list nat) :=
  mapR (locate cols) names.

(** The cells of a row at the given positions: its join key. *)
Definition key_of (idx : list nat) (row : list cell) : list cell :=
  map (fun i => nth i row CNone) idx.

(** Labels, and cells of a row, outside the join key. *)
Definition non_key_names (on cols : list string) : list string :=
  filter (fun c => negb (has_column c on)) cols.

Definition non_key (on cols : list string) (row : list cell) : list cell :=
  map snd (filter (fun p => negb (has_column (fst p) on)) (combine cols row)).

(** A row of the right table that matches no left row, laid out on the left
    table's columns: the key cells in place, every other cell missing. *)
Definition left_shaped (on lcols rcols : list string) (r : list cell)
  : list cell :=
  map (fun c =>
         if has_column c on then
           match index_of c rcols with
           | Some i => nth i r CNone
           | None => CNone
           end
         else CFloat NaN) lcols.

(** Stable insertion sort of rows on their key. *)
Fixpoint insert_row (idx : list nat) (r : list cell) (l : list (list cell))
  : list (list cell) :=
  match l with
  | [] => [r]
  | r' :: l' =>
      if key_leb (key_of idx r) (key_of idx r') then r :: l
      else r' :: insert_row idx r l'
  end.

Definition sort_rows (idx : list nat) (l : list (list cell))
  : list (list cell) :=
  fold_right (insert_row idx) [] l.

(** Labels that occur outside the key on both sides get pandas' suffixes. *)
Definition suffixed (sfx : string) (on others : list string) (c : string)
  : string :=
  if negb (has_column c on) && has_column c others then c ++ sfx else c.

(** [pd.merge(left, right, on=on, how="outer")] : every pair of a left and a
    right row with the same key, every left row without a partner, every
    right row without a partner; the columns of the left table followed by
    the non-key columns of the right one; rows sorted on the key. *)
Definition merge_outer (left right : DataFrame) (on : list string)
  : result DataFrame :=
  (li <- locate_all (columns left) on ;;
   ri <- locate_all (columns right) on ;;
   let lnames := non_key_names on (columns left) in
   let rnames := non_key_names on (columns right) in
   let cols :=
     map (suffixed "_x" on rnames) (columns left)
     ++ map (suffixed "_y" on lnames) rnames in
   let partners l :=
     filter (fun r => key_eqb (key_of li l) (key_of ri r)) (rows right) in
   let from_left :=
     flat_map (fun l =>
                 match partners l with
                 | [] => [l ++ repeat (CFloat NaN) (length rnames)]
                 | ms => map (fun r => l ++ non_key on (columns right) r) ms
                 end) (rows left) in
   let right_only :=
     flat_map (fun r =>
                 if existsb (fun l => key_eqb (key_of li l) (key_of ri r))
                      (rows left)
                 then []
                 else [left_shaped on (columns left) (columns right) r
                       ++ non_key on (columns right) r]) (rows right) in
   ok (mkDataFrame cols (sort_rows li (from_left ++ right_only))))%result.

(** [df.fillna(0)] : every missing cell becomes the number 0.  (pandas
    stores a count column that received a missing value as floats, 120 as
    120.0; the cells keep their value and are left as they are here.) *)
Definition fillna0 (df : DataFrame) : DataFrame :=
  mkDataFrame (columns df)
    (map (map (fun c => if isna c then CInt 0 else c)) (rows df)).

(** [df.rename(columns={old: new})] *)
Definition rename (df : DataFrame) (old new : string) : DataFrame :=
  mkDataFrame (map (fun c => if String.eqb c old then new else c) (columns df))
    (rows df).

Fixpoint set_nth {A} (i : nat) (a : A) (l : list A) : list A :=
  match l, i with
  | [], _ => []
  | _ :: l', O => a :: l'
  | b :: l', S i' => b :: set_nth i' a l'
  end.

(** A table with one more column at its right. *)
Definition append_column (df : DataFrame) (name : string) (values : list cell)
  : DataFrame :=
  mkDataFrame (columns df ++ [name])
    (map (fun p => fst p ++ [snd p]) (combine (rows df) values)).

(** [df[name] = values] : the column is replaced when it exists and appended
    otherwise; a sequence of the wrong length is refused. *)
Definition set_column (df : DataFrame) (name : string) (values : list cell)
  : result DataFrame :=
  if negb (length values =? length (rows df))%nat then raise ValueError
  else
    match index_of name (columns df) with
    | Some i =>
        ok (mkDataFrame (columns df)
              (map (fun p => set_nth i (snd p) (fst p))
                 (combine (rows df) values)))
    | None => ok (append_column df name values)
    end.

(** [df.groupby(by)[col].transform(f)] for a reduction [f]: every row
    receives the value of [f] on the [col] cells of the rows of its group; a
    row with a missing key belongs to no group and receives [NaN]. *)
Definition groupby_transform (df : DataFrame) (by_cols : list string)
  (col : string) (f : series -> float) : result (list cell) :=
  (bi <- locate_all (columns df) by_cols ;;
   ci <- locate (columns df) col ;;
   mapR (fun r =>
           if existsb isna (key_of bi r) then ok (CFloat NaN)
           else
             let group :=
               filter (fun r' => key_eqb (key_of bi r) (key_of bi r'))
                 (rows df) in
             (vals <- mapR (fun r' => to_float (nth ci r' CNone)) group ;;
              ok (CFloat (f vals))))
        (rows df))%result.

(** [df[mask]] : the rows whose flag is true. *)
Definition select_rows (df : DataFrame) (mask : list bool) : DataFrame :=
  mkDataFrame (columns df)
    (map fst (filter snd (combine (rows df) mask))).

(** The four key columns of a monthly aggregate. *)
Definition key_cols : list string := ["state"; "district"; "year"; "month"]%string.

(** The consolidation step of [run_aleis_pipeline]: the outer join of the
    enrolment and demographic aggregates filled with zero, joined with the
    biometric aggregate and filled again when that one is not empty. *)
Definition consolidate (enrol_agg demo_agg bio_agg : DataFrame)
  : result DataFrame :=
  (m <- merge_outer enrol_agg demo_agg key_cols ;;
   let consolidated_agg := fillna0 m in
   if negb (is_empty bio_agg) then
     m' <- merge_outer consolidated_agg bio_agg key_cols ;;
     ok (fillna0 m')
   else ok consolidated_agg)%result.


(** ** The outside world of [main.py]

    [run_aleis_pipeline] calls modules of the package that are not part of
    the verified core (ingest, clean, transform, aggregate, validate, the
    velocity feature, the LEPI indicator, the report generator) and touches
    the file system.  Each such call is an event; the pipeline is a tree of
    events whose continuations hold the code of [main.py] itself. *)

(** A path below [BASE_DIR], as its components. *)
Definition path : Type := list string.

(** A parsed YAML document. *)
#[local] Set Warnings "-register-all".
Inductive yaml : Type :=
| YNull
| YNum (x : float)
| YStr (s : string)
| YMap (entries : list (string * yaml)).

Fixpoint assoc {A} (k : string) (l : list (string * A)) : option A :=
  match l with
  | [] => None
  | (k', v) :: l' => if String.eqb k' k then Some v else assoc k l'
  end.

(** [config[key]] *)
Definition yaml_get (y : yaml) (key : string) : result yaml :=
  match y with
  | YMap entries =>
      match assoc key entries with
      | Some v => ok v
      | None => raise (KeyError key)
      end
  | _ => raise TypeError
  end.

(** An argument that is either one value for all rows or a column. *)
Inductive operand : Type :=
| Scalar (c : cell)
| Column (cs : list cell).

(** The value an operand has on row [i]. *)
Definition operand_at (o : operand) (i : nat) : cell :=
  match o with
  | Scalar c => c
  | Column cs => nth i cs CNone
  end.

Inductive event : Type -> Type :=
| Print (msg : string) : event unit
| ReadYaml (p : path) : event yaml
| PathExists (p : path) : event bool
| LoadDataset (p : path) : event DataFrame
| CheckEmpty (df : DataFrame) : event unit
| CleanCommonFields (df : DataFrame) : event DataFrame
| AddTimeFeatures (df : DataFrame) (date_col : string) : event DataFrame
| AggregateMonthly (df : DataFrame) (group_cols : list string)
    (value_col : string) : event DataFrame
| ValidateNonNegative (df : DataFrame) (col : string) : event unit
| EnrolmentVelocity (df : DataFrame) (col : string) : event DataFrame
| ComputeLepi (freq diversity temporal : operand) (weights : yaml)
  : event operand
| Mkdir (p : path) : event unit
| ToCsv (df : DataFrame) (p : path) : event unit
| GenerateBrief (insight_text : string) : event string
| WriteFile (p : path) (content : string) : event unit.

Inductive prog (A : Type) : Type :=
| Ret (a : A)
| Raise (e : exn)
| Call {X : Type} (ev : event X) (k : X -> prog A).

Arguments Ret {A} a.
Arguments Raise {A} e.
Arguments Call {A X} ev k.

Fixpoint bind {A B} (p : prog A) (f : A -> prog B) : prog B :=
  match p with
  | Ret a => f a
  | Raise e => Raise e
  | Call ev k => Call ev (fun x => bind (k x) f)
  end.

Definition call {X} (ev : event X) : prog X := Call ev Ret.

(** A step of [main.py] itself that returns or raises. *)
Definition lift {A} (r : result A) : prog A :=
  match r with
  | inl e => Raise e
  | inr a => Ret a
  end.

Declare Scope prog_scope.
Delimit Scope prog_scope with prog.
Notation "x <- p ;; k" := (bind p (fun x => k))
  (at level 61, p at next level, right associativity) : prog_scope.
Notation "p ;; k" := (bind p (fun _ => k))
  (at level 61, right associativity) : prog_scope.

(** An event with its answer type, as recorded in a trace. *)
Record call_record : Type := Called {
  answer_type : Type;
  called_event : event answer_type
}.

Arguments Called {answer_type} called_event.

(** The world answers each event by a value or an exception and moves to a
    new state. *)
Definition handler (W : Type) : Type :=
  forall X, event X -> W -> result X * W.

Definition trace_of {A W} (o : list call_record * result A * W)
  : list call_record := fst (fst o).
Definition outcome_of {A W} (o : list call_record * result A * W)
  : result A := snd (fst o).
Definition world_of {A W} (o : list call_record * result A * W) : W := snd o.

(** One run: the events issued in order, the outcome, the final world.  An
    exception raised by the world or by the program ends the run. *)
Fixpoint run {W A} (h : handler W) (p : prog A) (w : W)
  : list call_record * result A * W :=
  match p with
  | Ret a => ([], ok a, w)
  | Raise e => ([], raise e, w)
  | Call ev k =>
      match h _ ev w with
      | (inl e, w') => ([Called ev], raise e, w')
      | (inr x, w') =>
          let o := run h (k x) w' in
          (Called ev :: trace_of o, outcome_of o, world_of o)
      end
  end.

(** Every event the program can issue, whatever the answers, satisfies [P]. *)
Fixpoint all_calls {A} (P : forall X, event X -> Prop) (p : prog A) : Prop :=
  match p with
  | Ret _ | Raise _ => True
  | Call ev k => P _ ev /\ forall x, all_calls P (k x)
  end.

(** Weakest precondition of a program for returning normally with a trace
    and a value that satisfy [Q], when every answer of the world satisfies
    the contract [R]. *)
Fixpoint wp {A} (R : forall X, event X -> X -> Prop) (p : prog A)
  (Q : list call_record -> A -> Prop) : Prop :=
  match p with
  | Ret a => Q [] a
  | Raise _ => False
  | Call ev k =>
      forall x, R _ ev x -> wp R (k x) (fun tr a => Q (Called ev :: tr) a)
  end.

(** The Python name of the function behind an event. *)
Definition event_name {X} (ev : event X) : string :=
  match ev with
  | Print _ => "print"
  | ReadYaml _ => "yaml.safe_load"
  | PathExists _ => "exists"
  | LoadDataset _ => "load_dataset"
  | CheckEmpty _ => "check_empty"
  | CleanCommonFields _ => "clean_common_fields"
  | AddTimeFeatures _ _ => "add_time_features"
  | AggregateMonthly _ _ _ => "aggregate_monthly"
  | ValidateNonNegative _ _ => "validate_non_negative"
  | EnrolmentVelocity _ _ => "enrolment_velocity"
  | ComputeLepi _ _ _ _ => "compute_lepi"
  | Mkdir _ => "mkdir"
  | ToCsv _ _ => "to_csv"
  | GenerateBrief _ => "generate_brief"
  | WriteFile _ _ => "write"
  end.

(** ** main.py *)

Definition config_path : path := ["config"; "indicators.yaml"]%string.
Definition enrol_path : path :=
  ["data"; "raw"; "enrolment"; "enrolment.csv"]%string.
Definition demo_path : path :=
  ["data"; "raw"; "demographic_updates"; "demographic.csv"]%string.
Definition bio_path : path :=
  ["data"; "raw"; "biometric"; "biometric.csv"]%string.
Definition output_dir : path := ["data"; "processed"; "monthly"]%string.
Definition output_file : path := output_dir ++ ["demo_indicators.csv"%string].
Definition brief_path : path := ["reports"; "monthly_policy_brief.md"]%string.

Definition render_path (p : path) : string := String.concat "/" p.

(** [str(n)] for a length. *)
Definition string_of_nat (n : nat) : string :=
  NilEmpty.string_of_uint (Nat.to_uint n).

Definition load_config : prog yaml := call (ReadYaml config_path).

(** [df[name] = value] for a scalar (broadcast to every row) or a column. *)
Definition assign (df : DataFrame) (name : string) (value : operand)
  : result DataFrame :=
  match value with
  | Scalar c => set_column df name (repeat c (length (rows df)))
  | Column cs => set_column df name cs
  end.

(** [detect_anomalies] called on a column of a table with the threshold read
    from the configuration: the cells must be numbers, and so must the
    threshold where the comparison is reached. *)
Definition detect_anomalies_on (col : list cell) (threshold : yaml)
  : result (list bool) :=
  (s <- mapR to_float col ;;
   match threshold with
   | YNum t => ok (detect_anomalies s t)
   | _ =>
       if feqb (pd_std s) (Fin 0) then ok (repeat false (length s))
       else raise TypeError
   end)%result.

(** A column used as a boolean mask. *)
Definition as_mask (col : list cell) : result (list bool) :=
  mapR (fun c => match c with CBool b => ok b | _ => raise TypeError end) col.

(** The body of [run_aleis_pipeline], statement by statement.  The two
    progress messages are printed without their leading pictographs. *)
Definition run_aleis_pipeline : prog unit :=
  (call (Print "Starting ALEIS Pipeline...") ;;
   (* ---- Load configuration ---- *)
   config <- load_config ;;
   lepi_weights <- lift (yaml_get config "lepi") ;;
   mobility_weights <- lift (yaml_get config "mobility") ;;
   thresholds <- lift (yaml_get config "thresholds") ;;
   anomaly_threshold <- lift (yaml_get thresholds "anomaly_zscore") ;;
   (* ---- Load datasets ---- *)
   enrol_df <- call (LoadDataset enrol_path) ;;
   demo_df <- call (LoadDataset demo_path) ;;
   bio_exists <- call (PathExists bio_path) ;;
   bio_df <- (if bio_exists : bool then call (LoadDataset bio_path)
              else Ret empty_frame) ;;
   (* ---- Basic validation ---- *)
   call (CheckEmpty enrol_df) ;;
   call (CheckEmpty demo_df) ;;
   (* ---- Cleaning & Transformation ---- *)
   enrol_clean <- call (CleanCommonFields enrol_df) ;;
   enrol_df <- call (AddTimeFeatures enrol_clean "date") ;;
   demo_clean <- call (CleanCommonFields demo_df) ;;
   demo_df <- call (AddTimeFeatures demo_clean "date") ;;
   bio_df <- (if negb (is_empty bio_df) then
                bio_clean <- call (CleanCommonFields bio_df) ;;
                call (AddTimeFeatures bio_clean "date")
              else Ret bio_df) ;;
   (* ---- Aggregation ---- *)
   enrol_agg <- call (AggregateMonthly enrol_df key_cols "enrolments") ;;
   demo_sum <- call (AggregateMonthly demo_df key_cols "enrolments") ;;
   let demo_agg := rename demo_sum "enrolments" "total_updates" in
   bio_agg <- (if negb (is_empty bio_df) then
                 bio_sum <- call (AggregateMonthly bio_df key_cols
                                    "total_updates") ;;
                 Ret (rename bio_sum "total_updates" "biometric_updates")
               else Ret empty_frame) ;;
   (* ---- Merge everything into a single consolidated view ---- *)
   consolidated_agg <- lift (consolidate enrol_agg demo_agg bio_agg) ;;
   (* ---- Validation checks ---- *)
   call (ValidateNonNegative consolidated_agg "enrolments") ;;
   call (ValidateNonNegative consolidated_agg "total_updates") ;;
   lift (check_region_coverage consolidated_agg "district") ;;
   (* ---- Feature Engineering ---- *)
   consolidated_agg <- call (EnrolmentVelocity consolidated_agg "enrolments") ;;
   concentration <- lift (groupby_transform consolidated_agg
                            ["state"; "district"] "total_updates"
                            temporal_concentration) ;;
   consolidated_agg <- lift (set_column consolidated_agg
                               "temporal_concentration" concentration) ;;
   (* ---- Indicator Computation (LEPI) ---- *)
   freq <- lift (get_column consolidated_agg "total_updates") ;;
   temporal <- lift (get_column consolidated_agg "temporal_concentration") ;;
   lepi <- call (ComputeLepi (Column freq) (Scalar (CInt 1))
                   (Column temporal) lepi_weights) ;;
   consolidated_agg <- lift (assign consolidated_agg "lepi" lepi) ;;
   (* ---- Anomaly Detection ---- *)
   lepi_col <- lift (get_column consolidated_agg "lepi") ;;
   flags <- lift (detect_anomalies_on lepi_col anomaly_threshold) ;;
   consolidated_agg <- lift (set_column consolidated_agg "anomaly_flag"
                               (map CBool flags)) ;;
   (* ---- Save consolidated outputs ---- *)
   call (Mkdir output_dir) ;;
   call (ToCsv consolidated_agg output_file) ;;
   (* ---- Policy Brief Generation ---- *)
   flag_col <- lift (get_column consolidated_agg "anomaly_flag") ;;
   mask <- lift (as_mask flag_col) ;;
   let anomalies := select_rows consolidated_agg mask in
   let insight_text :=
     (string_of_nat (length (rows anomalies))
      ++ " districts exhibit unusually high life-event intensity, "
      ++ "suggesting elevated migration or administrative stress.")%string in
   policy_brief <- call (GenerateBrief insight_text) ;;
   call (WriteFile brief_path policy_brief) ;;
   call (Print ("ALEIS Pipeline Completed. Data saved to: "
                ++ render_path output_file)%string)
  )%prog%string.


(** ** Monthly aggregates and the tables of the scenarios *)

(** The exception [check_region_coverage] raises. *)
Definition low_coverage : exn := Warning "Low regional coverage detected".

(** A table with the single region "Pune" and a table whose only region
    identifier is missing. *)
Definition one_region : DataFrame :=
  mkDataFrame ["state"; "district"]%string
    [[CStr "MH"; CStr "Pune"]; [CStr "MH"; CStr "Pune"]].

Definition no_region : DataFrame :=
  mkDataFrame ["state"; "district"]%string [[CStr "MH"; CNone]].

(** The key of an aggregation unit: state, district, year, month. *)
Definition region_month : Type := string * string * Z * Z.

Definition rm_eqb (k k' : region_month) : bool :=
  let '(s, d, y, m) := k in
  let '(s', d', y', m') := k' in
  String.eqb s s' && String.eqb d d' && Z.eqb y y' && Z.eqb m m'.

Definition key_cells (k : region_month) : list cell :=
  let '(s, d, y, m) := k in [CStr s; CStr d; CInt y; CInt m].

(** Modelled from the spec: [aggregate_monthly] is not part of the sources;
    section 3 describes its output, a monthly aggregate, as one row per
    (state, district, year, month) holding the summed count of one source in
    the value column.  [agg_frame] builds that table from its entries. *)
Definition agg_frame (value_col : string) (entries : list (region_month * Z))
  : DataFrame :=
  mkDataFrame (key_cols ++ [value_col])
    (map (fun e => key_cells (fst e) ++ [CInt (snd e)]) entries).

Definition has_key (k : region_month) (entries : list (region_month * Z))
  : bool :=
  existsb (fun e => rm_eqb (fst e) k) entries.

(** The count a source holds for a key, zero when it has no row for it. *)
Definition count_of (k : region_month) (entries : list (region_month * Z))
  : Z :=
  match find (fun e => rm_eqb (fst e) k) entries with
  | Some e => snd e
  | None => 0%Z
  end.

(** The keys of either source: those of the first, then those only the
    second has. *)
Definition union_keys (E D : list (region_month * Z)) : list region_month :=
  map fst E ++ map fst (filter (fun d => negb (has_key (fst d) E)) D).

(** The consolidated row of a key: its cells, the enrolment count and the
    update count, each zero where the source has no row. *)
Definition consolidated_row (E D : list (region_month * Z)) (k : region_month)
  : list cell :=
  key_cells k ++ [CInt (count_of k E); CInt (count_of k D)].

(** The consolidation of [main.py] on two monthly aggregates, the demographic
    one renamed as the pipeline does, without a biometric source. *)
Definition consolidate_two (E D : list (region_month * Z)) : result DataFrame :=
  consolidate (agg_frame "enrolments" E)
    (rename (agg_frame "enrolments" D) "enrolments" "total_updates")
    empty_frame.

(** The end-to-end scenario of section 8. *)
Definition enrol_scenario : list (region_month * Z) :=
  [(("MH", "Pune", 2025, 1), 100); (("MH", "Pune", 2025, 2), 120)]%string%Z.

Definition demo_scenario : list (region_month * Z) :=
  [(("MH", "Pune", 2025, 1), 80)]%string%Z.


(** The diversity argument of an event: the constant 1 on every call of
    [compute_lepi]. *)
Definition placeholder_diversity (X : Type) (ev : event X) : Prop :=
  match ev with
  | ComputeLepi _ diversity _ _ => diversity = Scalar (CInt 1)
  | _ => True
  end.


(** ** The modules around the pipeline

    The functions [main.py] imports from the rest of the package are not
    part of the sources; the pipeline is verified against what the spec says
    of their answers. *)

(** Modelled from the spec: the configuration file, which section 6 gives
    the keys [lepi], [mobility] and [thresholds.anomaly_zscore], the last a
    real number. *)
Definition config_ok (y : yaml) : Prop :=
  exists lepi_weights mobility_weights thresholds t,
    yaml_get y "lepi" = ok lepi_weights
    /\ yaml_get y "mobility" = ok mobility_weights
    /\ yaml_get y "thresholds" = ok thresholds
    /\ yaml_get thresholds "anomaly_zscore" = ok (YNum t).

(** Modelled from the spec: the answers of [load_config],
    [aggregate_monthly], [enrolment_velocity] and [compute_lepi], none of
    which is in the sources.  By sections 3 and 4 the aggregator returns a
    monthly aggregate, one row per key, here with at least one row; the
    velocity feature adds a column to the table it is given; the indicator is
    one real score per row. *)
Definition environment (X : Type) (ev : event X) : X -> Prop :=
  match ev in event X return X -> Prop with
  | ReadYaml _ => config_ok
  | AggregateMonthly _ group_cols value_col => fun x =>
      group_cols = key_cols ->
      exists entries,
        entries <> [] /\ NoDup (map fst entries)
        /\ x = agg_frame value_col entries
  | EnrolmentVelocity df _ => fun x =>
      exists name values,
        name <> "biometric_updates"%string
        /\ length values = length (rows df)
        /\ x = append_column df name values
  | ComputeLepi freq _ _ _ => fun x =>
      exists scores : list float,
        x = Column (map CFloat scores)
        /\ match freq with
           | Column cs => length scores = length cs
           | Scalar _ => True
           end
  | _ => fun _ => True
  end.

(** The biometric file does not exist. *)
Definition biometric_absent (X : Type) (ev : event X) : X -> Prop :=
  match ev in event X return X -> Prop with
  | PathExists p => fun b => p = bio_path -> b = false
  | _ => fun _ => True
  end.

(** The world never raises, has no biometric file, and the modules around
    the pipeline answer as [environment] says. *)
Definition cooperative {W} (h : handler W) : Prop :=
  forall X (ev : event X) (w : W),
  exists x w',
    h X ev w = (ok x, w')
    /\ biometric_absent X ev x /\ environment X ev x.

(** What a run without a biometric source may do: it loads no biometric
    file, aggregates no biometric column, and the table it writes has the
    enrolment and update counts and no [biometric_updates] column. *)
Definition two_source_step (c : call_record) : Prop :=
  match called_event c with
  | LoadDataset p => p <> bio_path
  | AggregateMonthly _ _ value_col => value_col = "enrolments"%string
  | ToCsv df _ =>
      has_column "biometric_updates" (columns df) = false
      /\ has_column "enrolments" (columns df) = true
      /\ has_column "total_updates" (columns df) = true
  | _ => True
  end.

(** The calls of a complete run on the two required sources, in order. *)
Definition two_source_calls : list string :=
  ["print"; "yaml.safe_load"; "load_dataset"; "load_dataset"; "exists";
   "check_empty"; "check_empty";
   "clean_common_fields"; "add_time_features";
   "clean_common_fields"; "add_time_features";
   "aggregate_monthly"; "aggregate_monthly";
   "validate_non_negative"; "validate_non_negative";
   "enrolment_velocity"; "compute_lepi";
   "mkdir"; "to_csv"; "generate_brief"; "write"; "print"]%string.

(** The columns of the consolidated table of two sources. *)
Definition consolidated_cols : list string :=
  key_cols ++ ["enrolments"; "total_updates"]%string.

(** A row that starts with a key and the two counts. *)
Definition wide_row (r : list cell) : Prop :=
  exists k a b rest, r = key_cells k ++ [CInt a; CInt b] ++ rest.

(** A table that is the consolidated table of two sources with further
    columns at its right, none of them the biometric one. *)
Definition extends_consolidated (df : DataFrame) : Prop :=
  exists more,
    columns df = consolidated_cols ++ more
    /\ ~ In "biometric_updates"%string more
    /\ forall r, In r (rows df) ->
                 wide_row r /\ length r = length (columns df).

(** A world for the scenario of section 8: the configuration of the
    defaults, the raw tables passed through unchanged, every aggregate that
    of the enrolment source, a zero velocity, a constant indicator. *)
Definition scenario_config : yaml :=
  YMap [("lepi", YMap [("frequency", YNum (Fin 0.5));
                       ("diversity", YNum (Fin 0.2));
                       ("temporal", YNum (Fin 0.3))]);
        ("mobility", YMap []);
        ("thresholds", YMap [("anomaly_zscore", YNum (Fin 2.5))])]%string.

Definition operand_length (o : operand) : nat :=
  match o with
  | Scalar _ => 0
  | Column cs => length cs
  end.

Definition scenario_world : handler unit :=
  fun X ev w =>
    match ev in event X return result X * unit with
    | Print _ => (ok tt, w)
    | ReadYaml _ => (ok scenario_config, w)
    | PathExists _ => (ok false, w)
    | LoadDataset _ => (ok (agg_frame "enrolments" enrol_scenario), w)
    | CheckEmpty _ => (ok tt, w)
    | CleanCommonFields df => (ok df, w)
    | AddTimeFeatures df _ => (ok df, w)
    | AggregateMonthly _ _ value_col =>
        (ok (agg_frame value_col enrol_scenario), w)
    | ValidateNonNegative _ _ => (ok tt, w)
    | EnrolmentVelocity df _ =>
        (ok (append_column df "enrolment_velocity"
               (repeat (CFloat (Fin 0)) (length (rows df)))), w)
    | ComputeLepi freq _ _ _ =>
        (ok (Column (map CFloat (repeat (Fin 50) (operand_length freq)))), w)
    | Mkdir _ => (ok tt, w)
    | ToCsv _ _ => (ok tt, w)
    | GenerateBrief text => (ok text, w)
    | WriteFile _ _ => (ok tt, w)
    end.


(** ** Totals and three sources *)

(** [df[col].sum()] on a column of integer counts. *)
Definition int_total (col : list cell) : Z :=
  fold_right (fun c acc => match c with CInt z => (z + acc)%Z | _ => acc end)
    0%Z col.

(** The total of the counts of a source. *)
Definition total_count (entries : list (region_month * Z)) : Z :=
  fold_right (fun e acc => (snd e + acc)%Z) 0%Z entries.

(** The consolidation of [main.py] on three monthly aggregates, the
    demographic and the biometric one renamed as the pipeline does. *)
Definition consolidate_three (E D B : list (region_month * Z))
  : result DataFrame :=
  consolidate (agg_frame "enrolments" E)
    (rename (agg_frame "enrolments" D) "enrolments" "total_updates")
    (rename (agg_frame "total_updates" B) "total_updates" "biometric_updates").

(** The consolidated row of a key over three sources. *)
Definition consolidated_row3 (E D B : list (region_month * Z))
  (k : region_month) : list cell :=
  key_cells k
  ++ [CInt (count_of k E); CInt (count_of k D); CInt (count_of k B)].


(** A biometric aggregate for the scenario: one region-month the other two
    sources do not have. *)
Definition bio_scenario : list (region_month * Z) :=
  [(("MH", "Pune", 2025, 3), 40)]%string%Z.


(** ** Order of the calls of a run *)

(** Every event the program can issue satisfies [P], given the names of the
    calls that returned before it. *)
Fixpoint calls_after {A} (P : list string -> forall X, event X -> Prop)
  (hist : list string) (p : prog A) : Prop :=
  match p with
  | Ret _ | Raise _ => True
  | Call ev k =>
      P hist _ ev /\ forall x, calls_after P (hist ++ [event_name ev]) (k x)
  end.

(** The same along a trace. *)
Fixpoint trace_after (P : list string -> forall X, event X -> Prop)
  (hist : list string) (tr : list call_record) : Prop :=
  match tr with
  | [] => True
  | c :: tr' =>
      P hist _ (called_event c)
      /\ trace_after P (hist ++ [event_name (called_event c)]) tr'
  end.

Definition times_called (name : string) (hist : list string) : nat :=
  length (filter (String.eqb name) hist).

(** The discipline of the two writes of the pipeline: the table is written
    once, after both emptiness checks and both sign checks have returned; the
    brief is written after the table. *)
Definition write_after_checks (hist : list string) (X : Type) (ev : event X)
  : Prop :=
  match ev with
  | ToCsv _ _ =>
      times_called "check_empty" hist = 2%nat
      /\ times_called "validate_non_negative" hist = 2%nat
      /\ times_called "to_csv" hist = 0%nat
  | WriteFile _ _ => times_called "to_csv" hist = 1%nat
  | _ => True
  end.

(** The table the pipeline writes carries its three derived columns. *)
Definition derived_columns (hist : list string) (X : Type) (ev : event X)
  : Prop :=
  match ev with
  | ToCsv df _ =>
      has_column "temporal_concentration" (columns df) = true
      /\ has_column "lepi" (columns df) = true
      /\ has_column "anomaly_flag" (columns df) = true
  | _ => True
  end.

(** The lookups [run_aleis_pipeline] makes in the configuration, in its
    order. *)
Definition config_lookups (config : yaml) : result yaml :=
  (lepi_weights <- yaml_get config "lepi" ;;
   mobility_weights <- yaml_get config "mobility" ;;
   thresholds <- yaml_get config "thresholds" ;;
   yaml_get thresholds "anomaly_zscore")%result.

(** A configuration without the mobility weights, which the pipeline reads
    and never uses. *)
Definition config_without_mobility : yaml :=
  YMap [("lepi", YMap [("frequency", YNum (Fin 0.5))]);
        ("thresholds", YMap [("anomaly_zscore", YNum (Fin 2.5))])]%string.

(** A world like that of the scenario with this configuration. *)
Definition world_without_mobility : handler unit :=
  fun X ev w =>
    match ev in event X return result X * unit with
    | ReadYaml _ => (ok config_without_mobility, w)
    | ev' => scenario_world _ ev' w
    end.


(** ** Runs that end in an exception *)

(** Weakest precondition of a program for ending, normally or by an
    exception of its own, with a trace and an outcome that satisfy [Q], when
    every answer of the world satisfies the contract [R]. *)
Fixpoint wp_outcome {A} (R : forall X, event X -> X -> Prop) (p : prog A)
  (Q : list call_record -> result A -> Prop) : Prop :=
  match p with
  | Ret a => Q [] (ok a)
  | Raise e => Q [] (raise e)
  | Call ev k =>
      forall x, R _ ev x ->
                wp_outcome R (k x) (fun tr r => Q (Called ev :: tr) r)
  end.

(** Modelled from the spec: a world in which the data was lost upstream of
    the aggregator ([aggregate_monthly] is not in the sources): the
    configuration is complete and every monthly aggregate comes back without
    a row. *)
Definition drained (X : Type) (ev : event X) : X -> Prop :=
  match ev in event X return X -> Prop with
  | ReadYaml _ => config_ok
  | AggregateMonthly _ group_cols value_col => fun x =>
      group_cols = key_cols -> x = agg_frame value_col []
  | _ => fun _ => True
  end.

(** The scenario world with an aggregator that finds nothing. *)
Definition drained_world : handler unit :=
  fun X ev w =>
    match ev in event X return result X * unit with
    | AggregateMonthly _ _ value_col => (ok (agg_frame value_col []), w)
    | ev' => scenario_world _ ev' w
    end.

(** Nothing was written: neither the table nor the brief. *)
Definition nothing_written (tr : list call_record) : Prop :=
  times_called "to_csv" (map (fun c => event_name (called_event c)) tr) = 0%nat
  /\ times_called "write" (map (fun c => event_name (called_event c)) tr)
     = 0%nat.


(** ** The flags of a run *)

(** The sentence handed to the report generator. *)
Definition insight_text (n : nat) : string :=
  (string_of_nat n
   ++ " districts exhibit unusually high life-event intensity, "
   ++ "suggesting elevated migration or administrative stress.")%string.

(** The number of flagged rows. *)
Definition flagged (flags : list bool) : nat :=
  length (filter (fun b : bool => b) flags).

(** The configured anomaly threshold is the number [t]. *)
Definition threshold_is (t : float) (X : Type) (ev : event X) : X -> Prop :=
  match ev in event X return X -> Prop with
  | ReadYaml _ => fun y => config_lookups y = ok (YNum t)
  | _ => fun _ => True
  end.


(** ** Runs with a biometric source *)

(** A table that starts with the columns of the consolidated table of two
    sources, whatever follows them. *)
Definition extends_wide (df : DataFrame) : Prop :=
  exists more,
    columns df = consolidated_cols ++ more
    /\ forall r, In r (rows df) ->
                 wide_row r /\ length r = length (columns df).

(** The biometric file exists and holds rows, and cleaning and dating a
    table that has rows leaves it with rows. *)
Definition biometric_present (X : Type) (ev : event X) : X -> Prop :=
  match ev in event X return X -> Prop with
  | PathExists p => fun b => p = bio_path -> b = true
  | LoadDataset p => fun x => p = bio_path -> is_empty x = false
  | CleanCommonFields df => fun x => is_empty df = false -> is_empty x = false
  | AddTimeFeatures df _ => fun x => is_empty df = false -> is_empty x = false
  | _ => fun _ => True
  end.

(** What a run with a biometric source writes: a table with the three count
    columns. *)
Definition three_source_step (c : call_record) : Prop :=
  match called_event c with
  | ToCsv df _ =>
      has_column "biometric_updates" (columns df) = true
      /\ has_column "enrolments" (columns df) = true
      /\ has_column "total_updates" (columns df) = true
  | _ => True
  end.

(** The calls of a complete run on three sources, in order. *)
Definition three_source_calls : list string :=
  ["print"; "yaml.safe_load"; "load_dataset"; "load_dataset"; "exists";
   "load_dataset"; "check_empty"; "check_empty";
   "clean_common_fields"; "add_time_features";
   "clean_common_fields"; "add_time_features";
   "clean_common_fields"; "add_time_features";
   "aggregate_monthly"; "aggregate_monthly"; "aggregate_monthly";
   "validate_non_negative"; "validate_non_negative";
   "enrolment_velocity"; "compute_lepi";
   "mkdir"; "to_csv"; "generate_brief"; "write"; "print"]%string.

(** The scenario world with a biometric file. *)
Definition biometric_world : handler unit :=
  fun X ev w =>
    match ev in event X return result X * unit with
    | PathExists _ => (ok true, w)
    | ev' => scenario_world _ ev' w
    end.

(** ** detect_anomalies over the reductions it calls

    [detect_anomalies_with std zs] is the body of [detect_anomalies] over any
    implementation [std] of [Series.std] and [zs] of [scipy.stats.zscore]:
    what holds of it holds of the function however the two reductions round
    their intermediate results.  [detect_anomalies] is its instance at
    [pd_std] and [zscore]. *)
Definition detect_anomalies_with (std : series -> float)
  (zs : series -> series) (s : series) (threshold : float) : list bool :=
  if feqb (std s) (Fin 0) then
    repeat false (length s)
  else
    let z := zs s in
    map (fun zi => fgtb (fabs (nan_to_num zi)) threshold) z.

(** ** detect_anomalies on a Series with its dtype

    A Series of floats, or of integers that fit 64 bits, is a numeric array.
    A Series that holds a Python integer beyond 64 bits, or that is built
    with [dtype=object], is an array of Python objects.  [Series.std] reduces
    such an array as well, over the values converted to floats, which fails
    on an integer too large for a double ([OverflowError]).  The reductions
    of numpy inside [zscore] do not: the square root that ends [ndarray.std]
    has no loop for Python objects ([TypeError]), and on an array without
    elements the mean of objects fails before that ([AttributeError]). *)
Inductive pdSeries : Type :=
| Float64 (values : series)
| Object (ints : list Z).

(** [len(series)] *)
Definition length_py (s : pdSeries) : nat :=
  match s with
  | Float64 values => length values
  | Object ints => length ints
  end.

(** [float(z)] on a Python integer. *)
Definition float_of_int (z : Z) : result float :=
  if (Z.abs z <? 2 ^ 1024 - 2 ^ 970)%Z then ok (Fin (IZR z))
  else raise (OtherError "OverflowError").

(** [series.std()] *)
Definition std_py (s : pdSeries) : result float :=
  match s with
  | Float64 values => ok (pd_std values)
  | Object ints =>
      (values <- mapR float_of_int ints ;; ok (pd_std values))%result
  end.

(** [zscore(series)] *)
Definition zscore_py (s : pdSeries) : result series :=
  match s with
  | Float64 values => ok (zscore values)
  | Object [] => raise (OtherError "AttributeError")
  | Object (_ :: _) => raise TypeError
  end.

Definition detect_anomalies_py (s : pdSeries) (threshold : float)
  : result (list bool) :=
  (sd <- std_py s ;;
   if feqb sd (Fin 0) then
     ok (repeat false (length_py s))
   else
     z <- zscore_py s ;;
     ok (map (fun zi => fgtb (fabs (nan_to_num zi)) threshold) z))%result.

(** ** Runs that return *)

Definition is_compute_lepi {X} (ev : event X) : bool :=
  match ev with
  | ComputeLepi _ _ _ _ => true
  | _ => false
  end.

(** On every path of [p] that ends in a return, whatever the answers,
    [compute_lepi] has been called; [seen] tells whether it was before [p]. *)
Fixpoint returns_after {A} (seen : bool) (p : prog A) : Prop :=
  match p with
  | Ret _ => seen = true
  | Raise _ => True
  | Call ev k => forall x, returns_after (seen || is_compute_lepi ev) (k x)
  end.


(** ** The answers of a run *)

(** A call together with what the world answered. *)
Record exchange : Type := Answered {
  asked_type : Type;
  asked : event asked_type;
  answer : asked_type
}.

Arguments Answered {asked_type} asked answer.

(** The calls of a run that were answered by a value, in order, each with its
    answer. *)
Fixpoint exchanges {W A} (h : handler W) (p : prog A) (w : W)
  : list exchange :=
  match p with
  | Ret _ | Raise _ => []
  | Call ev k =>
      match h _ ev w with
      | (inl _, _) => []
      | (inr x, w') => Answered ev x :: exchanges h (k x) w'
      end
  end.

(** Weakest precondition of a program for returning normally with exchanges
    and a value that satisfy [Q], when every answer of the world satisfies
    the contract [R]. *)
Fixpoint wp_answers {A} (R : forall X, event X -> X -> Prop) (p : prog A)
  (Q : list exchange -> A -> Prop) : Prop :=
  match p with
  | Ret a => Q [] a
  | Raise _ => False
  | Call ev k =>
      forall x, R _ ev x ->
                wp_answers R (k x) (fun xs a => Q (Answered ev x :: xs) a)
  end.

(** A world like [scenario_world] whose indicator varies from row to row: the
    score of a row is its frequency. *)
Definition cell_score (c : cell) : float :=
  match c with
  | CInt z => Fin (IZR z)
  | CFloat x => x
  | _ => Fin 0
  end.

Definition operand_scores (o : operand) : list float :=
  match o with
  | Scalar _ => []
  | Column cs => map cell_score cs
  end.

Definition scoring_world : handler unit :=
  fun X ev w =>
    match ev in event X return result X * unit with
    | ComputeLepi freq _ _ _ =>
        (ok (Column (map CFloat (operand_scores freq))), w)
    | other => scenario_world _ other w
    end.


(* ================================================================== *)
(** * Properties *)

(** ** Comparisons on reals *)

Lemma Rltb_true (x y : R) : Rltb x y = true <-> x < y.
Proof. unfold Rltb; destruct (Rlt_dec x y); split; intros; try easy. Qed.

Lemma Rltb_false (x y : R) : Rltb x y = false <-> y <= x.
Proof.
  unfold Rltb; destruct (Rlt_dec x y); split; intros; try easy; lra.
Qed.

Lemma Reqb_true (x y : R) : Reqb x y = true <-> x = y.
Proof. unfold Reqb; destruct (Req_dec_T x y); split; intros; try easy. Qed.

Lemma Reqb_false (x y : R) : Reqb x y = false <-> x <> y.
Proof. unfold Reqb; destruct (Req_dec_T x y); split; intros; try easy. Qed.

Lemma Reqb_refl (x : R) : Reqb x x = true.
Proof. now apply Reqb_true. Qed.

(** ** Reductions on real-valued series *)

Lemma fold_fadd_Fin (xs : list R) (a : R) :
  fold_left fadd (map Fin xs) (Fin a) = Fin (a + Rsum xs).
Proof.
  revert a; induction xs as [|x xs IH]; intros a; simpl.
  - f_equal; lra.
  - rewrite IH; f_equal; lra.
Qed.

Lemma fsum_Fin (xs : list R) : fsum (map Fin xs) = Fin (Rsum xs).
Proof. unfold fsum; rewrite fold_fadd_Fin; f_equal; lra. Qed.

Lemma dropna_Fin (xs : list R) : dropna (map Fin xs) = map Fin xs.
Proof.
  unfold dropna; induction xs as [|x xs IH]; simpl; [easy | now rewrite IH].
Qed.

Lemma INR_length_neq_0 {A} (l : list A) : l <> [] -> INR (length l) <> 0.
Proof.
  destruct l; [easy|]; intros _.
  apply not_0_INR; simpl; lia.
Qed.

Lemma Rsum_sq_nonneg (f : R -> R) (xs : list R) :
  0 <= Rsum (map (fun x => f x * f x) xs).
Proof.
  induction xs as [|x xs IH]; simpl; [lra|].
  pose proof (Rle_0_sqr (f x)) as H; unfold Rsqr in H; lra.
Qed.

Lemma sq_dev_nonneg (xs : list R) : 0 <= sq_dev xs.
Proof. apply (Rsum_sq_nonneg (fun x => x - Rmean xs)). Qed.

Lemma np_mean_Fin (xs : list R) :
  xs <> [] -> np_mean (map Fin xs) = Fin (Rmean xs).
Proof.
  intros H; unfold np_mean, of_nat.
  rewrite fsum_Fin, length_map; simpl.
  apply INR_length_neq_0 in H.
  apply Reqb_false in H; now rewrite H.
Qed.

Lemma pd_mean_Fin (xs : list R) :
  xs <> [] -> pd_mean (map Fin xs) = Fin (Rmean xs).
Proof.
  intros H; unfold pd_mean; rewrite dropna_Fin.
  rewrite <- (np_mean_Fin xs H).
  destruct xs; [easy | reflexivity].
Qed.

Lemma np_std_Fin (xs : list R) :
  xs <> [] -> np_std (map Fin xs) = Fin (pop_std xs).
Proof.
  intros H; unfold np_std.
  rewrite np_mean_Fin by exact H.
  rewrite map_map; simpl.
  rewrite <- (map_map (fun x => (x + - Rmean xs) * (x + - Rmean xs)) Fin).
  rewrite np_mean_Fin by (destruct xs; easy).
  unfold Rmean at 1; rewrite length_map; simpl.
  assert (Rsum (map (fun x => (x + - Rmean xs) * (x + - Rmean xs)) xs)
          = sq_dev xs) as ->.
  { unfold sq_dev; f_equal. }
  pose proof (sq_dev_nonneg xs) as Hs.
  assert (0 < INR (length xs)) as Hn.
  { apply lt_0_INR; destruct xs; [easy | simpl; lia]. }
  assert (0 <= sq_dev xs / INR (length xs)) as Hq.
  { apply Rmult_le_pos; [exact Hs|]. left; now apply Rinv_0_lt_compat. }
  apply Rltb_false in Hq; rewrite Hq.
  reflexivity.
Qed.

Lemma pd_std_Fin (xs : list R) :
  (2 <= length xs)%nat -> pd_std (map Fin xs) = Fin (sample_std xs).
Proof.
  intros H; unfold pd_std.
  rewrite dropna_Fin, length_map.
  destruct (Nat.leb_spec (length xs) 1) as [Hle|_]; [lia|].
  assert (xs <> []) as Hne by (destruct xs; [simpl in H; lia | easy]).
  rewrite fsum_Fin; unfold of_nat; simpl.
  pose proof (INR_length_neq_0 xs Hne) as Hn0.
  apply Reqb_false in Hn0; rewrite Hn0; fold (Rmean xs).
  rewrite map_map; simpl.
  rewrite <- (map_map (fun x => (Rmean xs + - x) * (Rmean xs + - x)) Fin).
  rewrite fsum_Fin.
  assert (Rsum (map (fun x => (Rmean xs + - x) * (Rmean xs + - x)) xs)
          = sq_dev xs) as ->.
  { unfold sq_dev; f_equal. apply map_ext; intros; ring. }
  assert (0 < INR (length xs - 1)) as Hn by (apply lt_0_INR; lia).
  assert (Reqb (INR (length xs - 1)) 0 = false) as Hn1
      by (apply Reqb_false; lra).
  unfold fdiv; rewrite Hn1.
  pose proof (sq_dev_nonneg xs) as Hs.
  assert (0 <= sq_dev xs / INR (length xs - 1)) as Hq.
  { apply Rmult_le_pos; [exact Hs|]. left; now apply Rinv_0_lt_compat. }
  apply Rltb_false in Hq; unfold fsqrt; rewrite Hq.
  reflexivity.
Qed.

Lemma pd_std_short (s : series) :
  (length (dropna s) <= 1)%nat -> pd_std s = NaN.
Proof.
  intros H; unfold pd_std.
  destruct (Nat.leb_spec (length (dropna s)) 1); [reflexivity | lia].
Qed.

Lemma zscore_Fin (xs : list R) :
  xs <> [] ->
  zscore (map Fin xs)
  = map (fun i => std_score xs i) (seq 0 (length xs)).
Proof.
  intros H; unfold zscore.
  rewrite np_mean_Fin, np_std_Fin by exact H.
  rewrite map_map; simpl.
  apply nth_ext with (d := NaN) (d' := NaN).
  - now rewrite !length_map, length_seq.
  - intros n Hn; rewrite length_map in Hn.
    rewrite (nth_indep _ NaN (fdiv (Fin (0 + - Rmean xs)) (Fin (pop_std xs)))),
      (map_nth (fun x => fdiv (Fin (x + - Rmean xs)) (Fin (pop_std xs))))
      by now rewrite length_map.
    rewrite (nth_indep _ NaN (std_score xs 0)), map_nth
      by now rewrite length_map, length_seq.
    rewrite seq_nth by exact Hn; simpl.
    reflexivity.
Qed.

(** ** Constant series *)

Lemma Rsum_repeat (c : R) (n : nat) : Rsum (repeat c n) = INR n * c.
Proof.
  induction n as [|n IH]; [simpl; lra|].
  rewrite S_INR; simpl repeat; simpl Rsum; rewrite IH; lra.
Qed.

Lemma Rmean_repeat (c : R) (n : nat) :
  (1 <= n)%nat -> Rmean (repeat c n) = c.
Proof.
  intros H; unfold Rmean; rewrite Rsum_repeat, repeat_length.
  assert (0 < INR n) by (apply lt_0_INR; lia).
  field; lra.
Qed.

Lemma sq_dev_repeat (c : R) (n : nat) : (1 <= n)%nat -> sq_dev (repeat c n) = 0.
Proof.
  intros H; unfold sq_dev.
  rewrite Rmean_repeat by exact H.
  rewrite map_repeat, Rsum_repeat; ring.
Qed.

Lemma pop_std_repeat (c : R) (n : nat) : (1 <= n)%nat -> pop_std (repeat c n) = 0.
Proof.
  intros H; unfold pop_std; rewrite sq_dev_repeat by exact H.
  unfold Rdiv; rewrite Rmult_0_l; apply sqrt_0.
Qed.

Lemma sample_std_repeat (c : R) (n : nat) :
  (1 <= n)%nat -> sample_std (repeat c n) = 0.
Proof.
  intros H; unfold sample_std; rewrite sq_dev_repeat by exact H.
  unfold Rdiv; rewrite Rmult_0_l; apply sqrt_0.
Qed.

Lemma std_score_repeat (c : R) (n i : nat) :
  (i < n)%nat -> std_score (repeat c n) i = NaN.
Proof.
  intros H; unfold std_score.
  rewrite pop_std_repeat, Rmean_repeat by lia.
  rewrite (nth_repeat_lt c) by exact H.
  unfold fdiv, signed_inf.
  rewrite Reqb_refl.
  assert (Reqb (c - c) 0 = true) as -> by (apply Reqb_true; ring).
  reflexivity.
Qed.

Lemma repeat_Fin (c : R) (n : nat) : repeat (Fin c) n = map Fin (repeat c n).
Proof. now rewrite map_repeat. Qed.

Lemma map_const_seq {A} (a : A) (f : nat -> A) (n : nat) :
  (forall i, (i < n)%nat -> f i = a) -> map f (seq 0 n) = repeat a n.
Proof.
  intros H.
  apply nth_ext with (d := a) (d' := a).
  - now rewrite length_map, length_seq, repeat_length.
  - intros i Hi; rewrite length_map, length_seq in Hi.
    rewrite nth_repeat.
    rewrite (nth_indep _ a (f 0%nat)), map_nth
      by now rewrite length_map, length_seq.
    rewrite seq_nth by exact Hi; simpl; now apply H.
Qed.

(** A constant series that reaches the z-score branch gets the score [NaN]
    everywhere, hence after coercion the decision [0 > threshold]. *)
Lemma zscore_repeat (c : R) (n : nat) :
  (1 <= n)%nat -> zscore (repeat (Fin c) n) = repeat NaN n.
Proof.
  intros H; rewrite repeat_Fin, zscore_Fin, repeat_length.
  - apply map_const_seq; intros i Hi; now apply std_score_repeat.
  - destruct n; [lia | easy].
Qed.

(** ** detect_anomalies *)

Lemma detect_anomalies_singleton (c t : R) :
  detect_anomalies [Fin c] (Fin t) = [Rltb t 0].
Proof.
  unfold detect_anomalies.
  rewrite pd_std_short by (simpl; lia).
  change [Fin c] with (repeat (Fin c) 1).
  rewrite zscore_repeat by lia.
  simpl; now rewrite Rabs_R0.
Qed.

Lemma detect_anomalies_as_instance (s : series) (t : float) :
  detect_anomalies s t = detect_anomalies_with pd_std zscore s t.
Proof. reflexivity. Qed.

(** The short-circuit, whatever computes the deviation. *)
Lemma short_circuit_with (std : series -> float) (zs : series -> series)
  (s : series) (t : float) :
  feqb (std s) (Fin 0) = true ->
  detect_anomalies_with std zs s t = repeat false (length s).
Proof. intros H; unfold detect_anomalies_with; now rewrite H. Qed.



(** A series of one element, whatever the element: the sample deviation is
    [NaN], the short-circuit is missed, the score is [NaN] (for a number
    [0/0], for an infinity [inf - inf]), and the coerced score [0] is compared
    with the threshold. *)
Lemma detect_anomalies_one_element (c : float) (t : R) :
  detect_anomalies [c] (Fin t) = [Rltb t 0].
Proof.
  destruct c as [x | | |].
  - apply detect_anomalies_singleton.
  - unfold detect_anomalies; rewrite pd_std_short by (simpl; lia).
    unfold zscore, np_mean, fsum; simpl.
    assert (Rltb 1 0 = false) as -> by (apply Rltb_false; lra).
    simpl; now rewrite Rabs_R0.
  - unfold detect_anomalies; rewrite pd_std_short by (simpl; lia).
    unfold zscore, np_mean, fsum; simpl.
    assert (Rltb 1 0 = false) as -> by (apply Rltb_false; lra).
    simpl; now rewrite Rabs_R0.
  - unfold detect_anomalies; rewrite pd_std_short by (simpl; lia).
    simpl; now rewrite Rabs_R0.
Qed.

Lemma pd_std_sevens : feqb (pd_std (repeat (Fin 7) 3)) (Fin 0) = true.
Proof.
  rewrite repeat_Fin, pd_std_Fin by (rewrite repeat_length; lia).
  rewrite sample_std_repeat by lia.
  simpl; apply Reqb_refl.
Qed.

(** C1, as amended.  A series whose [Series.std()] is exactly zero takes the
    short-circuit and is flagged all-false at every threshold; a constant
    series of two or more values is such a series when its deviation is
    computed as exactly zero, which rounding in the mean can prevent.  A
    series of one element never is: its deviation is [NaN], its score is
    [NaN], and the coerced score [0] is compared with the threshold, so that
    it is flagged false when the threshold is not negative and flagged
    anomalous when it is. *)
Theorem detect_anomalies_constant (s : series) (c : float) (t : R) :
  (feqb (pd_std s) (Fin 0) = true ->
   forall threshold : float,
     detect_anomalies s threshold = repeat false (length s))
  /\ (0 <= t -> detect_anomalies [c] (Fin t) = [false])
  /\ (t < 0 -> detect_anomalies [c] (Fin t) = [true]).
Proof.
  split; [| split].
  - intros H threshold; rewrite detect_anomalies_as_instance.
    now apply short_circuit_with.
  - intros Ht; rewrite detect_anomalies_one_element.
    f_equal; now apply Rltb_false.
  - intros Ht; rewrite detect_anomalies_one_element.
    f_equal; now apply Rltb_true.
Qed.

Lemma detect_anomalies_constant_witness :
  detect_anomalies (repeat (Fin 7) 3) (Fin (-1)) = repeat false 3
  /\ detect_anomalies [Fin 7] (Fin 2.5) = [false]
  /\ detect_anomalies [PInf] (Fin (-1)) = [true].
Proof.
  split; [| split].
  - apply (proj1 (detect_anomalies_constant (repeat (Fin 7) 3) (Fin 7) 2.5)
             pd_std_sevens).
  - apply (proj1 (proj2 (detect_anomalies_constant [] (Fin 7) 2.5))); lra.
  - apply (proj2 (proj2 (detect_anomalies_constant [] PInf (-1)))); lra.
Defined.

(** C1 as stated fails: the one-element series [5] at threshold [-1] is
    flagged anomalous. *)
Lemma detect_anomalies_constant_negative_threshold :
  detect_anomalies (repeat (Fin 5) 1) (Fin (-1)) = [true].
Proof.
  simpl repeat; rewrite detect_anomalies_singleton.
  f_equal; apply Rltb_true; lra.
Qed.

Lemma detect_anomalies_nth (xs : list R) (t : float) (i : nat) :
  feqb (pd_std (map Fin xs)) (Fin 0) = false ->
  (i < length xs)%nat ->
  nth i (detect_anomalies (map Fin xs) t) false
  = flag_of_score (std_score xs i) t.
Proof.
  intros Hs Hi; unfold detect_anomalies; rewrite Hs.
  rewrite zscore_Fin by (destruct xs; [simpl in Hi; lia | easy]).
  rewrite map_map.
  rewrite (nth_indep _ false (flag_of_score (std_score xs 0) t)), 
    (map_nth (fun j => flag_of_score (std_score xs j) t))
    by now rewrite length_map, length_seq.
  now rewrite seq_nth.
Qed.


(** The series [0, 2]: mean 1, squared deviations 2, population deviation 1,
    sample deviation sqrt 2. *)
Lemma Rmean_0_2 : Rmean [0; 2] = 1.
Proof. unfold Rmean; simpl; field. Qed.

Lemma sq_dev_0_2 : sq_dev [0; 2] = 2.
Proof. unfold sq_dev; rewrite Rmean_0_2; simpl; ring. Qed.

Lemma pop_std_0_2 : pop_std [0; 2] = 1.
Proof.
  unfold pop_std; rewrite sq_dev_0_2; simpl.
  replace (2 / (1 + 1)) with 1 by field; apply sqrt_1.
Qed.

Lemma sample_std_0_2 : sample_std [0; 2] = sqrt 2.
Proof.
  unfold sample_std; rewrite sq_dev_0_2; simpl.
  f_equal; field.
Qed.

Lemma sqrt_2_bounds : 1.2 <= sqrt 2.
Proof.
  pose proof (sqrt_def 2 ltac:(lra)) as Hd.
  pose proof (sqrt_pos 2) as Hp.
  nra.
Qed.

Lemma pd_std_0_2_nonzero : feqb (pd_std (map Fin [0; 2])) (Fin 0) = false.
Proof.
  rewrite pd_std_Fin by (simpl; lia).
  rewrite sample_std_0_2; simpl.
  apply Reqb_false; pose proof sqrt_2_bounds; lra.
Qed.

Lemma std_score_0_2 : std_score [0; 2] 0 = Fin (-1).
Proof.
  unfold std_score; rewrite Rmean_0_2, pop_std_0_2; simpl.
  assert (Reqb 1 0 = false) as -> by (apply Reqb_false; lra).
  f_equal; field.
Qed.

Lemma detect_anomalies_0_2_flagged :
  nth 0 (detect_anomalies (map Fin [0; 2]) (Fin 0.9)) false = true.
Proof.
  rewrite detect_anomalies_nth by (try exact pd_std_0_2_nonzero; simpl; lia).
  unfold flag_of_score; rewrite std_score_0_2; simpl.
  apply Rltb_true.
  unfold Rabs; destruct (Rcase_abs (-1)); lra.
Qed.



Lemma detect_anomalies_one_flag_each (s : series) (t : float) :
  length (detect_anomalies s t) = length s.
Proof.
  unfold detect_anomalies, zscore.
  destruct (feqb (pd_std s) (Fin 0)).
  - apply repeat_length.
  - now rewrite !length_map.
Qed.

(** C3, as amended.  On a Series of dtype float64, whatever its values ([NaN]
    and the infinities included) and whatever the threshold,
    [detect_anomalies] raises nothing and returns one boolean per element.
    It is not so on every Series of numbers: on one of dtype object the
    reductions of [zscore] raise. *)
Theorem detect_anomalies_float64_returns (values : series) (t : float) :
  exists flags : list bool,
    detect_anomalies_py (Float64 values) t = ok flags
    /\ flags = detect_anomalies values t
    /\ length flags = length values.
Proof.
  exists (detect_anomalies values t); split; [| split].
  - unfold detect_anomalies_py, detect_anomalies.
    cbn [std_py zscore_py length_py bindR ok].
    now destruct (feqb (pd_std values) (Fin 0)).
  - reflexivity.
  - apply detect_anomalies_one_flag_each.
Qed.

(** The sample deviation of [a, 0] is [|a| / sqrt 2]. *)
Lemma pd_std_pair_nonzero (a : R) :
  a <> 0 -> feqb (pd_std (map Fin [a; 0])) (Fin 0) = false.
Proof.
  intros Ha; rewrite pd_std_Fin by (simpl; lia).
  assert (Rmean [a; 0] = a / 2) as Hm by (unfold Rmean; simpl; field).
  assert (sq_dev [a; 0] = a * a / 2) as Hq
      by (unfold sq_dev; rewrite Hm; simpl; field).
  assert (sample_std [a; 0] = sqrt (a * a / 2)) as ->
      by (unfold sample_std; rewrite Hq; simpl; f_equal; field).
  assert (0 < a * a) by nra.
  assert (0 < sqrt (a * a / 2)) by (apply sqrt_lt_R0; lra).
  simpl; apply Reqb_false; lra.
Qed.

Lemma float_of_int_fits (z : Z) :
  (Z.abs z <? 2 ^ 1024 - 2 ^ 970)%Z = true ->
  float_of_int z = ok (Fin (IZR z)).
Proof. intros H; unfold float_of_int; now rewrite H. Qed.

(** C3 as stated fails: the Series of the integers [2^64] and [0], which
    pandas keeps with dtype object, has a deviation that is not zero and
    raises [TypeError] inside [zscore]. *)
Lemma detect_anomalies_object_raises :
  detect_anomalies_py (Object [18446744073709551616%Z; 0%Z]) (Fin 2.5)
  = raise TypeError.
Proof.
  unfold detect_anomalies_py; cbn [std_py mapR].
  rewrite !float_of_int_fits by (vm_compute; reflexivity).
  cbn [bindR ok].
  change [Fin (IZR 18446744073709551616); Fin (IZR 0)]
    with (map Fin [IZR 18446744073709551616; 0]).
  rewrite pd_std_pair_nonzero by (apply not_0_IZR; lia).
  reflexivity.
Qed.

Lemma fgtb_antitone (a : float) (t1 t2 : R) :
  t1 <= t2 -> fgtb a (Fin t2) = true -> fgtb a (Fin t1) = true.
Proof.
  intros H; destruct a; simpl; try easy.
  rewrite !Rltb_true; lra.
Qed.

Lemma nth_map_impl {A} (f g : A -> bool) (l : list A) (i : nat) :
  (forall a, f a = true -> g a = true) ->
  nth i (map f l) false = true -> nth i (map g l) false = true.
Proof.
  intros H; revert i; induction l as [|a l IH]; intros [|i]; simpl; auto.
Qed.

(** C10.  Raising the threshold can only un-flag elements: whatever is
    flagged at [t2] is flagged at every [t1 <= t2]. *)
Theorem detect_anomalies_antitone (s : series) (t1 t2 : R) (i : nat) :
  t1 <= t2 ->
  nth i (detect_anomalies s (Fin t2)) false = true ->
  nth i (detect_anomalies s (Fin t1)) false = true.
Proof.
  intros H; unfold detect_anomalies.
  destruct (feqb (pd_std s) (Fin 0)); [easy|].
  apply nth_map_impl; intros a; now apply fgtb_antitone.
Qed.

Lemma detect_anomalies_antitone_witness :
  nth 0 (detect_anomalies (map Fin [0; 2]) (Fin 0.5)) false = true.
Proof.
  apply (detect_anomalies_antitone (map Fin [0; 2]) 0.5 0.9 0).
  - lra.
  - exact detect_anomalies_0_2_flagged.
Defined.

(** ** temporal_concentration *)

Lemma feqb_eq (a : float) (r : R) : feqb a (Fin r) = true <-> a = Fin r.
Proof.
  destruct a; simpl; try (split; discriminate).
  rewrite Reqb_true; split; [now intros -> | now intros [= ->]].
Qed.

(** C4.  [temporal_concentration] answers exactly [0.0] when the mean of the
    series is exactly zero, and the quotient of the sample deviation by the
    mean otherwise. *)
Theorem temporal_concentration_cases (s : series) :
  (pd_mean s = Fin 0 -> temporal_concentration s = Fin 0)
  /\ (pd_mean s <> Fin 0 ->
      temporal_concentration s = fdiv (pd_std s) (pd_mean s)).
Proof.
  unfold temporal_concentration; split; intros H.
  - apply feqb_eq in H; now rewrite H.
  - destruct (feqb (pd_mean s) (Fin 0)) eqn:E; [|reflexivity].
    apply feqb_eq in E; contradiction.
Qed.

Lemma pd_mean_1_m1 : pd_mean (map Fin [1; -1]) = Fin 0.
Proof.
  rewrite pd_mean_Fin by easy; f_equal.
  unfold Rmean; simpl; field.
Qed.

Lemma pd_mean_1_3 : pd_mean (map Fin [1; 3]) <> Fin 0.
Proof.
  rewrite pd_mean_Fin by easy; intros [= H]; revert H.
  unfold Rmean; simpl; lra.
Qed.

Lemma temporal_concentration_cases_witness :
  temporal_concentration (map Fin [1; -1]) = Fin 0
  /\ temporal_concentration (map Fin [1; 3])
     = fdiv (pd_std (map Fin [1; 3])) (pd_mean (map Fin [1; 3])).
Proof.
  split.
  - apply (proj1 (temporal_concentration_cases (map Fin [1; -1]))).
    exact pd_mean_1_m1.
  - apply (proj2 (temporal_concentration_cases (map Fin [1; 3]))).
    exact pd_mean_1_3.
Defined.

Lemma temporal_concentration_singleton (x : R) :
  temporal_concentration [Fin x] = if Reqb x 0 then Fin 0 else NaN.
Proof.
  unfold temporal_concentration.
  change [Fin x] with (map Fin [x]).
  rewrite pd_mean_Fin by easy.
  assert (Rmean [x] = x) as -> by (unfold Rmean; simpl; field).
  simpl feqb; destruct (Reqb x 0); [reflexivity|].
  now rewrite pd_std_short by (simpl; lia).
Qed.

(** C5, as amended.  On a single-period series the sample deviation is
    undefined; [temporal_concentration] answers [0.0] only when the single
    value is zero, and the undefined value [NaN] when it is not. *)
Theorem temporal_concentration_single_period (x : R) :
  (x = 0 -> temporal_concentration [Fin x] = Fin 0)
  /\ (x <> 0 -> temporal_concentration [Fin x] = NaN).
Proof.
  rewrite temporal_concentration_singleton; split; intros H.
  - apply Reqb_true in H; now rewrite H.
  - apply Reqb_false in H; now rewrite H.
Qed.

Lemma temporal_concentration_single_period_witness :
  temporal_concentration [Fin 0] = Fin 0
  /\ temporal_concentration [Fin 5] = NaN.
Proof.
  split.
  - apply (proj1 (temporal_concentration_single_period 0)); reflexivity.
  - apply (proj2 (temporal_concentration_single_period 5)); lra.
Defined.

(** C5 as stated fails: the single-period series [5] has a nonzero mean and
    its concentration is the undefined value, not [0.0]. *)
Lemma temporal_concentration_single_period_nan :
  temporal_concentration [Fin 5] = NaN
  /\ temporal_concentration [Fin 5] <> Fin 0.
Proof.
  rewrite temporal_concentration_singleton.
  assert (Reqb 5 0 = false) as -> by (apply Reqb_false; lra).
  split; [reflexivity | discriminate].
Qed.

(** ** check_region_coverage *)

(** C6, as amended.  [check_region_coverage] signals exactly when the number
    of distinct non-missing region identifiers is below its threshold of one,
    that is when there is none; a column with one distinct identifier (or
    more) passes. *)
Theorem check_region_coverage_threshold
  (df : DataFrame) (region_col : string) (col : list cell) :
  get_column df region_col = ok col ->
  ((nunique col < 1)%nat ->
   check_region_coverage df region_col = raise low_coverage)
  /\ ((1 <= nunique col)%nat -> check_region_coverage df region_col = ok tt).
Proof.
  intros Hc; unfold check_region_coverage; rewrite Hc; simpl.
  split; intros H.
  - apply Nat.ltb_lt in H; now rewrite H.
  - apply Nat.ltb_ge in H; now rewrite H.
Qed.

Lemma check_region_coverage_threshold_witness :
  check_region_coverage no_region "district" = raise low_coverage
  /\ check_region_coverage one_region "district" = ok tt.
Proof.
  split.
  - apply (proj1 (check_region_coverage_threshold no_region "district"
                    [CNone] eq_refl)).
    vm_compute; lia.
  - apply (proj2 (check_region_coverage_threshold one_region "district"
                    [CStr "Pune"; CStr "Pune"] eq_refl)).
    vm_compute; lia.
Defined.

(** C6 as stated fails: a region column with exactly one distinct
    non-missing value raises nothing. *)
Lemma check_region_coverage_one_region_passes :
  get_column one_region "district" = ok [CStr "Pune"; CStr "Pune"]
  /\ nunique [CStr "Pune"; CStr "Pune"] = 1%nat
  /\ check_region_coverage one_region "district" = ok tt.
Proof. repeat split. Qed.

(** ** Consolidation *)

Lemma rm_eqb_eq (k k' : region_month) : rm_eqb k k' = true <-> k = k'.
Proof.
  destruct k as [[[s d] y] m], k' as [[[s' d'] y'] m']; simpl.
  rewrite !andb_true_iff, !String.eqb_eq, !Z.eqb_eq.
  split; [intros [[[-> ->] ->] ->]; reflexivity | intros [= -> -> -> ->]; auto].
Qed.

Lemma key_eqb_cells (k k' : region_month) :
  key_eqb (key_cells k) (key_cells k') = rm_eqb k k'.
Proof.
  destruct k as [[[s d] y] m], k' as [[[s' d'] y'] m']; simpl.
  now rewrite andb_true_r, !andb_assoc.
Qed.

Lemma has_key_In (k : region_month) (E : list (region_month * Z)) :
  has_key k E = true <-> In k (map fst E).
Proof.
  unfold has_key; rewrite existsb_exists, in_map_iff.
  split; intros [e [H1 H2]]; exists e.
  - apply rm_eqb_eq in H2; tauto.
  - split; [tauto | apply rm_eqb_eq; tauto].
Qed.

Lemma count_of_absent (k : region_month) (E : list (region_month * Z)) :
  has_key k E = false -> count_of k E = 0%Z.
Proof.
  unfold has_key, count_of; induction E as [|e E IH]; simpl; [easy|].
  destruct (rm_eqb (fst e) k); simpl; [discriminate | exact IH].
Qed.

Lemma count_of_present (e : region_month * Z) (E : list (region_month * Z)) :
  NoDup (map fst E) -> In e E -> count_of (fst e) E = snd e.
Proof.
  unfold count_of; induction E as [|e' E IH]; simpl; [easy|].
  intros Hnd [-> | Hin].
  - assert (rm_eqb (fst e) (fst e) = true) as -> by now apply rm_eqb_eq.
    reflexivity.
  - inversion Hnd as [|? ? Hni Hnd']; subst.
    destruct (rm_eqb (fst e') (fst e)) eqn:Eq.
    + apply rm_eqb_eq in Eq; exfalso; apply Hni.
      rewrite Eq; now apply in_map.
    + now apply IH.
Qed.

(** The rows of the two sources that share the key of an entry. *)
Lemma filter_key_absent (k : region_month) (D : list (region_month * Z)) :
  has_key k D = false -> filter (fun d => rm_eqb k (fst d)) D = [].
Proof.
  unfold has_key; induction D as [|d D IH]; simpl; [easy|].
  intros H; apply orb_false_iff in H as [H1 H2].
  assert (rm_eqb k (fst d) = false) as ->.
  { destruct (rm_eqb k (fst d)) eqn:Eq; [|easy].
    apply rm_eqb_eq in Eq; subst k.
    assert (rm_eqb (fst d) (fst d) = true) by now apply rm_eqb_eq.
    congruence. }
  now apply IH.
Qed.

Lemma filter_key_present (k : region_month) (D : list (region_month * Z)) :
  NoDup (map fst D) -> has_key k D = true ->
  filter (fun d => rm_eqb k (fst d)) D = [(k, count_of k D)].
Proof.
  unfold has_key, count_of; induction D as [|d D IH]; simpl; [easy|].
  intros Hnd H; inversion Hnd as [|? ? Hni Hnd']; subst.
  destruct (rm_eqb (fst d) k) eqn:Eq.
  - apply rm_eqb_eq in Eq; subst k.
    assert (rm_eqb (fst d) (fst d) = true) as -> by now apply rm_eqb_eq.
    rewrite filter_key_absent.
    + now destruct d.
    + destruct (has_key (fst d) D) eqn:Hk; [|reflexivity].
      apply has_key_In in Hk; contradiction.
  - simpl in H.
    assert (rm_eqb k (fst d) = false) as ->.
    { destruct (rm_eqb k (fst d)) eqn:Eq'; [|easy].
      apply rm_eqb_eq in Eq'; subst k.
      assert (rm_eqb (fst d) (fst d) = true) by now apply rm_eqb_eq.
      congruence. }
    now apply IH.
Qed.

Lemma flat_map_map {A B C} (f : B -> list C) (g : A -> B) (l : list A) :
  flat_map f (map g l) = flat_map (fun a => f (g a)) l.
Proof. induction l as [|a l IH]; simpl; [easy | now rewrite IH]. Qed.

Lemma filter_map_comm {A B} (p : B -> bool) (g : A -> B) (l : list A) :
  filter p (map g l) = map g (filter (fun a => p (g a)) l).
Proof.
  induction l as [|a l IH]; simpl; [easy|].
  destruct (p (g a)); simpl; now rewrite IH.
Qed.

Lemma existsb_map {A B} (p : B -> bool) (g : A -> B) (l : list A) :
  existsb p (map g l) = existsb (fun a => p (g a)) l.
Proof. induction l as [|a l IH]; simpl; [easy | now rewrite IH]. Qed.

Lemma map_flat_map_singleton {A B C}
  (f : A -> list B) (g : B -> C) (h : A -> C) (l : list A) :
  (forall a, In a l -> map g (f a) = [h a]) ->
  map g (flat_map f l) = map h l.
Proof.
  induction l as [|a l IH]; simpl; [easy|]; intros H.
  rewrite map_app, H, IH by auto; reflexivity.
Qed.

Lemma map_flat_map_filter {A B C}
  (f : A -> list B) (g : B -> C) (p : A -> bool) (h : A -> C) (l : list A) :
  (forall a, In a l -> map g (f a) = if p a then [h a] else []) ->
  map g (flat_map f l) = map h (filter p l).
Proof.
  induction l as [|a l IH]; simpl; [easy|]; intros H.
  rewrite map_app, H, IH by auto.
  destruct (p a); reflexivity.
Qed.

Lemma insert_row_perm (idx : list nat) (r : list cell) (l : list (list cell)) :
  Permutation (insert_row idx r l) (r :: l).
Proof.
  induction l as [|r' l IH]; simpl; [apply Permutation_refl|].
  destruct (key_leb (key_of idx r) (key_of idx r')).
  - apply Permutation_refl.
  - apply perm_trans with (r' :: r :: l); [now apply perm_skip | apply perm_swap].
Qed.

Lemma sort_rows_perm (idx : list nat) (l : list (list cell)) :
  Permutation (sort_rows idx l) l.
Proof.
  induction l as [|r l IH]; simpl; [apply perm_nil|].
  apply perm_trans with (r :: sort_rows idx l).
  - apply insert_row_perm.
  - now apply perm_skip.
Qed.

Lemma key_of_agg_row (k : region_month) (v : cell) :
  key_of [0; 1; 2; 3]%nat (key_cells k ++ [v]) = key_cells k.
Proof. destruct k as [[[s d] y] m]; reflexivity. Qed.

Section TwoSources.

Variables E D : list (region_month * Z).
Hypothesis unique_E : NoDup (map fst E).
Hypothesis unique_D : NoDup (map fst D).

Let fill := map (fun c => if isna c then CInt 0 else c).
Let row (e : region_month * Z) := key_cells (fst e) ++ [CInt (snd e)].
Let demo_cols := ["state"; "district"; "year"; "month"; "total_updates"]%string.
Let enrol_cols := ["state"; "district"; "year"; "month"; "enrolments"]%string.

Lemma partners_of (k : region_month) :
  filter (fun r => key_eqb (key_cells k) (key_of [0; 1; 2; 3]%nat r))
    (map row D)
  = map row (filter (fun d => rm_eqb k (fst d)) D).
Proof.
  rewrite filter_map_comm; f_equal.
  apply filter_ext; intros d; unfold row.
  now rewrite key_of_agg_row, key_eqb_cells.
Qed.

Lemma matched_of (k : region_month) :
  existsb (fun l => key_eqb (key_of [0; 1; 2; 3]%nat l) (key_cells k))
    (map row E)
  = has_key k E.
Proof.
  rewrite existsb_map; unfold has_key.
  clear unique_E; induction E as [|e E' IH]; cbn [existsb]; [easy|].
  unfold row at 1; rewrite key_of_agg_row, key_eqb_cells.
  now rewrite IH.
Qed.


Lemma non_key_demo_row (d : region_month * Z) :
  non_key key_cols demo_cols (row d) = [CInt (snd d)].
Proof. destruct d as [[[[s di] y] m] v]; reflexivity. Qed.

Lemma left_shaped_demo_row (d : region_month * Z) :
  left_shaped key_cols enrol_cols demo_cols (row d)
  = key_cells (fst d) ++ [CFloat NaN].
Proof. destruct d as [[[[s di] y] m] v]; reflexivity. Qed.

Lemma fill_key_cells (k : region_month) (rest : list cell) :
  fill (key_cells k ++ rest) = key_cells k ++ fill rest.
Proof. destruct k as [[[s di] y] m]; reflexivity. Qed.

Lemma consolidate_two_rows :
  exists rows',
    consolidate_two E D
    = ok (mkDataFrame (key_cols ++ ["enrolments"; "total_updates"]%string)
            rows')
    /\ Permutation rows' (map (consolidated_row E D) (union_keys E D)).
Proof.
  unfold consolidate_two, consolidate, merge_outer, agg_frame, rename.
  cbn -[key_eqb key_of non_key left_shaped sort_rows].
  unfold fillna0; cbn [columns rows].
  eexists; split; [reflexivity|].
  fold fill; fold row; fold demo_cols; fold enrol_cols.
  eapply perm_trans; [apply Permutation_map, sort_rows_perm|].
  rewrite map_app; unfold union_keys; rewrite map_app, !flat_map_map.
  match goal with
  | |- Permutation (?a ++ ?b) (?a' ++ ?b') =>
      assert (a = a') as ->; [| assert (b = b') as ->; [| reflexivity]]
  end.
  - rewrite map_map.
    apply map_flat_map_singleton; intros e He.
    unfold row at 1; rewrite key_of_agg_row, partners_of.
    unfold consolidated_row.
    rewrite (count_of_present e E unique_E He).
    destruct (has_key (fst e) D) eqn:Hk.
    + rewrite filter_key_present by assumption.
      cbn [map]; rewrite non_key_demo_row; cbn [snd].
      unfold row; rewrite <- app_assoc, fill_key_cells; reflexivity.
    + rewrite filter_key_absent, count_of_absent by assumption.
      cbn [map]; unfold row; rewrite <- app_assoc, fill_key_cells.
      reflexivity.
  - rewrite map_map.
    apply map_flat_map_filter; intros d Hd.
    unfold row at 1; rewrite key_of_agg_row, matched_of.
    destruct (has_key (fst d) E) eqn:Hk; cbn [negb map]; [reflexivity|].
    rewrite left_shaped_demo_row, non_key_demo_row.
    unfold consolidated_row.
    rewrite (count_of_present d D unique_D Hd), count_of_absent by assumption.
    rewrite <- app_assoc, fill_key_cells; reflexivity.
Qed.

End TwoSources.

Lemma union_keys_In (E D : list (region_month * Z)) (k : region_month) :
  In k (union_keys E D) <-> In k (map fst E) \/ In k (map fst D).
Proof.
  unfold union_keys; rewrite in_app_iff; split.
  - intros [H | H]; [now left | right].
    apply in_map_iff in H as [d [<- Hd]].
    apply filter_In in Hd as [Hd _]; now apply in_map.
  - intros [H | H]; [now left |].
    destruct (has_key k E) eqn:Hk; [left; now apply has_key_In | right].
    apply in_map_iff in H as [d [<- Hd]].
    apply in_map, filter_In; split; [exact Hd | now rewrite Hk].
Qed.

(** Dropping entries keeps the keys distinct. *)
Lemma keys_filter_NoDup (D : list (region_month * Z))
  (keep : region_month * Z -> bool) :
  NoDup (map fst D) -> NoDup (map fst (filter keep D)).
Proof.
  intros HD; induction D as [|d D IH]; [constructor|].
  apply NoDup_cons_iff in HD as [Hni HD]; cbn [filter].
  destruct (keep d); [|now apply IH].
  cbn [map]; constructor; [|now apply IH].
  rewrite in_map_iff; intros [d' [Hk Hin]].
  apply filter_In in Hin as [Hin _].
  apply Hni; rewrite <- Hk; now apply in_map.
Qed.

Lemma union_keys_NoDup (E D : list (region_month * Z)) :
  NoDup (map fst E) -> NoDup (map fst D) -> NoDup (union_keys E D).
Proof.
  intros HE HD; unfold union_keys.
  apply NoDup_app; [exact HE | now apply keys_filter_NoDup |].
  intros k Hk Hin.
  apply in_map_iff in Hin as [d [<- Hd]].
  apply filter_In in Hd as [_ Hd].
  apply has_key_In in Hk; rewrite Hk in Hd; discriminate.
Qed.

Lemma key_of_consolidated_row (E D : list (region_month * Z)) (k : region_month) :
  key_of [0; 1; 2; 3]%nat (consolidated_row E D k) = key_cells k.
Proof. destruct k as [[[s d] y] m]; reflexivity. Qed.

Lemma key_cells_inj (k k' : region_month) : key_cells k = key_cells k' -> k = k'.
Proof.
  destruct k as [[[s d] y] m], k' as [[[s' d'] y'] m']; simpl.
  now intros [= -> -> -> ->].
Qed.

(** C7.  On two monthly aggregates with one row per key, the consolidation of
    [main.py] has the columns of the keys, [enrolments] and [total_updates];
    its rows are exactly the consolidated rows of the keys found in either
    source, one row per key, a count missing from a source being zero.  On
    the scenario of the spec it has the two rows (MH, Pune, 2025, 1, 100, 80)
    and (MH, Pune, 2025, 2, 120, 0). *)
Theorem consolidation_outer_join :
  (forall E D : list (region_month * Z),
      NoDup (map fst E) -> NoDup (map fst D) ->
      exists rows',
        consolidate_two E D
        = ok (mkDataFrame
                (key_cols ++ ["enrolments"; "total_updates"]%string) rows')
        /\ (forall r,
               In r rows' <->
               exists k, (In k (map fst E) \/ In k (map fst D))
                         /\ r = consolidated_row E D k)
        /\ NoDup (map (key_of [0; 1; 2; 3]%nat) rows'))
  /\ consolidate_two enrol_scenario demo_scenario
     = ok (mkDataFrame
             ["state"; "district"; "year"; "month";
              "enrolments"; "total_updates"]%string
             [[CStr "MH"; CStr "Pune"; CInt 2025; CInt 1; CInt 100; CInt 80];
              [CStr "MH"; CStr "Pune"; CInt 2025; CInt 2; CInt 120; CInt 0]]).
Proof.
  split; [|reflexivity].
  intros E D HE HD.
  destruct (consolidate_two_rows E D HE HD) as [rows' [Heq Hperm]].
  exists rows'; split; [exact Heq | split].
  - intros r; split.
    + intros Hr.
      apply (Permutation_in _ Hperm), in_map_iff in Hr as [k [<- Hk]].
      exists k; split; [now apply union_keys_In | reflexivity].
    + intros [k [Hk ->]].
      apply (Permutation_in _ (Permutation_sym Hperm)), in_map.
      now apply union_keys_In.
  - apply (Permutation_NoDup
             (Permutation_map _ (Permutation_sym Hperm))).
    rewrite map_map.
    rewrite (map_ext _ key_cells) by (intros; apply key_of_consolidated_row).
    apply Finite.Injective_map_NoDup.
    + intros k k'; apply key_cells_inj.
    + now apply union_keys_NoDup.
Qed.

Lemma scenario_keys_unique :
  NoDup (map fst enrol_scenario) /\ NoDup (map fst demo_scenario).
Proof.
  split; repeat constructor; simpl; intuition discriminate.
Qed.

Lemma consolidation_outer_join_witness :
  exists rows',
    consolidate_two enrol_scenario demo_scenario
    = ok (mkDataFrame (key_cols ++ ["enrolments"; "total_updates"]%string) rows')
    /\ (forall r,
           In r rows' <->
           exists k, (In k (map fst enrol_scenario)
                      \/ In k (map fst demo_scenario))
                     /\ r = consolidated_row enrol_scenario demo_scenario k)
    /\ NoDup (map (key_of [0; 1; 2; 3]%nat) rows').
Proof.
  apply (proj1 consolidation_outer_join enrol_scenario demo_scenario).
  - exact (proj1 scenario_keys_unique).
  - exact (proj2 scenario_keys_unique).
Defined.

(** ** Programs and their runs *)

Lemma all_calls_bind {A B} (P : forall X, event X -> Prop)
  (p : prog A) (f : A -> prog B) :
  all_calls P p -> (forall a, all_calls P (f a)) -> all_calls P (bind p f).
Proof.
  intros Hp Hf; induction p as [a | e | X ev k IH]; simpl; auto.
  destruct Hp as [Hev Hk]; split; auto.
Qed.

Lemma all_calls_lift {A} (P : forall X, event X -> Prop) (r : result A) :
  all_calls P (lift r).
Proof. destruct r; exact I. Qed.

Lemma all_calls_call {X} (P : forall X, event X -> Prop) (ev : event X) :
  P X ev -> all_calls P (call ev).
Proof. intros H; simpl; auto. Qed.

Lemma all_calls_run {W A} (P : forall X, event X -> Prop)
  (h : handler W) (p : prog A) :
  all_calls P p ->
  forall w, Forall (fun c => P _ (called_event c)) (trace_of (run h p w)).
Proof.
  induction p as [a | e | X ev k IH]; simpl; intros Hp w; try constructor.
  destruct Hp as [Hev Hk].
  destruct (h X ev w) as [[e | x] w']; unfold trace_of; simpl.
  - constructor; [exact Hev | constructor].
  - constructor; [exact Hev | now apply IH].
Qed.

Ltac walk_calls :=
  repeat first
    [ apply all_calls_lift
    | apply all_calls_call; exact I
    | apply all_calls_call; reflexivity
    | exact I
    | apply all_calls_bind; [| intro]
    | match goal with
      | |- all_calls _ (if ?b then _ else _) => destruct b
      end ].

Lemma run_aleis_pipeline_diversity :
  all_calls placeholder_diversity run_aleis_pipeline.
Proof. unfold run_aleis_pipeline, load_config; walk_calls. Qed.

Lemma wp_run {W A} (R : forall X, event X -> X -> Prop) (h : handler W)
  (p : prog A) :
  (forall X (ev : event X) (w : W),
      exists x w', h X ev w = (ok x, w') /\ R X ev x) ->
  forall (Q : list call_record -> A -> Prop) (w : W),
    wp R p Q ->
    exists a,
      outcome_of (run h p w) = ok a /\ Q (trace_of (run h p w)) a.
Proof.
  intros Hh; induction p as [a | e | X ev k IH]; intros Q w Hwp.
  - exists a; split; [reflexivity | exact Hwp].
  - destruct Hwp.
  - simpl in Hwp; simpl.
    destruct (Hh X ev w) as [x [w' [Heq HR]]]; rewrite Heq.
    destruct (IH x _ w' (Hwp x HR)) as [a [Ho HQ]].
    exists a; split; [exact Ho | exact HQ].
Qed.

Lemma wp_bind_lift {A B} (R : forall X, event X -> X -> Prop)
  (r : result A) (a : A) (f : A -> prog B)
  (Q : list call_record -> B -> Prop) :
  r = ok a -> wp R (f a) Q -> wp R (bind (lift r) f) Q.
Proof. intros ->; exact (fun H => H). Qed.

Lemma wp_bind_call {X B} (R : forall X, event X -> X -> Prop)
  (ev : event X) (f : X -> prog B) (Q : list call_record -> B -> Prop) :
  (forall x, R X ev x -> wp R (f x) (fun tr b => Q (Called ev :: tr) b)) ->
  wp R (bind (call ev) f) Q.
Proof. intros H; exact H. Qed.

(** ** Shapes of the tables of a two-source run *)

Lemma mapR_ok {A B} (f : A -> result B) (g : A -> B) (l : list A) :
  (forall a, In a l -> f a = ok (g a)) -> mapR f l = ok (map g l).
Proof.
  induction l as [|a l IH]; intros H; [reflexivity|].
  cbn [mapR map]; rewrite (H a (or_introl eq_refl)), IH.
  - reflexivity.
  - intros a' Ha'; apply H; now right.
Qed.

Lemma mapR_total {A B} (f : A -> result B) (l : list A) :
  (forall a, In a l -> exists b, f a = ok b) ->
  exists bs, mapR f l = ok bs /\ length bs = length l.
Proof.
  induction l as [|a l IH]; intros H; [now exists []|].
  destruct (H a (or_introl eq_refl)) as [b Hb].
  destruct IH as [bs [Hbs Hlen]]; [intros a' Ha'; apply H; now right|].
  exists (b :: bs); cbn [mapR]; rewrite Hb, Hbs; simpl; now rewrite Hlen.
Qed.

Lemma index_of_app (name : string) (l1 l2 : list string) :
  index_of name (l1 ++ l2)
  = match index_of name l1 with
    | Some i => Some i
    | None => option_map (Nat.add (length l1)) (index_of name l2)
    end.
Proof.
  induction l1 as [|c l1 IH]; simpl.
  - now destruct (index_of name l2).
  - destruct (String.eqb c name); [reflexivity|].
    rewrite IH; destruct (index_of name l1); [reflexivity|].
    now destruct (index_of name l2).
Qed.

Lemma index_of_lt (name : string) (cols : list string) (i : nat) :
  index_of name cols = Some i -> (i < length cols)%nat.
Proof.
  revert i; induction cols as [|c cols IH]; simpl; [discriminate|].
  intros i; destruct (String.eqb c name).
  - intros [= <-]; lia.
  - destruct (index_of name cols) as [j|]; [|discriminate].
    intros [= <-]; specialize (IH j eq_refl); lia.
Qed.

Lemma index_of_absent (name : string) (cols : list string) :
  ~ In name cols -> index_of name cols = None.
Proof.
  induction cols as [|c cols IH]; simpl; [reflexivity|]; intros H.
  destruct (String.eqb_spec c name) as [-> | _]; [tauto|].
  rewrite IH by tauto; reflexivity.
Qed.

Lemma index_of_None_absent (name : string) (cols : list string) :
  index_of name cols = None -> ~ In name cols.
Proof.
  induction cols as [|c cols IH]; simpl; [tauto|].
  destruct (String.eqb_spec c name) as [-> | Hne]; [discriminate|].
  destruct (index_of name cols); [discriminate|].
  intros _ [H | H]; [contradiction | now apply IH].
Qed.

Lemma has_column_In (name : string) (cols : list string) :
  has_column name cols = true <-> In name cols.
Proof.
  unfold has_column; rewrite existsb_exists; split.
  - intros [c [Hc Heq]]; apply String.eqb_eq in Heq; now subst.
  - intros H; exists name; split; [exact H | apply String.eqb_refl].
Qed.

Lemma set_nth_length {A} (i : nat) (a : A) (l : list A) :
  length (set_nth i a l) = length l.
Proof.
  revert i; induction l as [|b l IH]; intros [|i]; simpl; auto.
Qed.

Lemma set_nth_app_r {A} (i : nat) (a : A) (l1 l2 : list A) :
  (length l1 <= i)%nat ->
  set_nth i a (l1 ++ l2) = l1 ++ set_nth (i - length l1) a l2.
Proof.
  revert i; induction l1 as [|b l1 IH]; intros i H; simpl.
  - now rewrite Nat.sub_0_r.
  - destruct i as [|i]; [simpl in H; lia|].
    simpl; rewrite IH by (simpl in H; lia); reflexivity.
Qed.

Lemma nth_set_nth {A} (i : nat) (a d : A) (l : list A) :
  (i < length l)%nat -> nth i (set_nth i a l) d = a.
Proof.
  revert i; induction l as [|b l IH]; intros [|i] H; simpl in *;
    try lia; [reflexivity | apply IH; lia].
Qed.

Lemma map_combine_values {A B} (g : A * B -> B) (l : list A) (vs : list B) :
  length vs = length l ->
  (forall a v, In a l -> g (a, v) = v) ->
  map g (combine l vs) = vs.
Proof.
  revert vs; induction l as [|a l IH]; intros [|v vs] Hlen Hg;
    simpl in *; try lia; [reflexivity|].
  rewrite Hg by auto; f_equal; apply IH; [lia | auto].
Qed.

Lemma combine_rows_length {A B} (l : list A) (vs : list B) (g : A * B -> A) :
  length vs = length l -> length (map g (combine l vs)) = length l.
Proof. intros H; rewrite length_map, length_combine; lia. Qed.

Lemma in_combine_rows {A B C} (g : A * B -> C) (l : list A) (vs : list B)
  (c : C) :
  In c (map g (combine l vs)) -> exists a v, In a l /\ c = g (a, v).
Proof.
  intros H; apply in_map_iff in H as [[a v] [<- Hin]].
  exists a, v; split; [now apply in_combine_l in Hin | reflexivity].
Qed.

Lemma key_cells_length (k : region_month) : length (key_cells k) = 4%nat.
Proof. now destruct k as [[[s d] y] m]. Qed.

Lemma wide_row_append (r : list cell) (v : cell) :
  wide_row r -> wide_row (r ++ [v]).
Proof.
  intros [k [a [b [rest ->]]]]; exists k, a, b, (rest ++ [v]).
  now rewrite <- !app_assoc.
Qed.

Lemma wide_row_set_nth (r : list cell) (i : nat) (v : cell) :
  (6 <= i)%nat -> wide_row r -> wide_row (set_nth i v r).
Proof.
  intros Hi [k [a [b [rest ->]]]].
  exists k, a, b, (set_nth (i - 6) v rest).
  rewrite (app_assoc (key_cells k)).
  rewrite set_nth_app_r
    by (rewrite length_app, key_cells_length; simpl; lia).
  rewrite length_app, key_cells_length; simpl length.
  now rewrite <- app_assoc.
Qed.

Lemma wide_row_cells (r : list cell) :
  wide_row r ->
  exists s d y m a b,
    nth 0 r CNone = CStr s /\ nth 1 r CNone = CStr d
    /\ nth 2 r CNone = CInt y /\ nth 3 r CNone = CInt m
    /\ nth 4 r CNone = CInt a /\ nth 5 r CNone = CInt b.
Proof.
  intros [[[[s d] y] m] [a [b [rest ->]]]].
  exists s, d, y, m, a, b; repeat split.
Qed.

Lemma index_of_new_column (name : string) (more : list string) (i : nat) :
  ~ In name consolidated_cols ->
  index_of name (consolidated_cols ++ more) = Some i -> (6 <= i)%nat.
Proof.
  intros Hn; rewrite index_of_app, (index_of_absent _ _ Hn).
  destruct (index_of name more); simpl; [|discriminate].
  intros [= <-]; lia.
Qed.

Lemma append_column_extends (df : DataFrame) (name : string)
  (values : list cell) :
  extends_consolidated df ->
  name <> "biometric_updates"%string ->
  length values = length (rows df) ->
  extends_consolidated (append_column df name values)
  /\ length (rows (append_column df name values)) = length (rows df).
Proof.
  intros [more [Hc [Hb Hr]]] Hname Hlen; split.
  - exists (more ++ [name]); cbn [append_column columns rows].
    rewrite Hc, app_assoc; split; [reflexivity | split].
    + rewrite in_app_iff; simpl; intuition congruence.
    + intros r Hin.
      apply in_combine_rows in Hin as [r0 [v [Hin ->]]]; cbn [fst snd].
      destruct (Hr r0 Hin) as [Hw Hl]; split.
      * now apply wide_row_append.
      * rewrite !length_app, Hl, Hc, !length_app; simpl; lia.
  - cbn [append_column rows].
    now apply (combine_rows_length _ _ (fun p => fst p ++ [snd p])).
Qed.

Lemma set_column_extends (df : DataFrame) (name : string)
  (values : list cell) :
  extends_consolidated df ->
  ~ In name consolidated_cols ->
  name <> "biometric_updates"%string ->
  length values = length (rows df) ->
  exists df',
    set_column df name values = ok df'
    /\ extends_consolidated df'
    /\ length (rows df') = length (rows df)
    /\ get_column df' name = ok values.
Proof.
  intros Hext Hnew Hname Hlen; unfold set_column.
  rewrite Hlen, Nat.eqb_refl; cbn [negb].
  destruct (index_of name (columns df)) as [i|] eqn:Hi.
  - eexists; split; [reflexivity|].
    destruct Hext as [more [Hc [Hb Hr]]].
    assert (6 <= i)%nat as Hi6
        by (rewrite Hc in Hi; now apply index_of_new_column in Hi).
    pose proof (index_of_lt _ _ _ Hi) as Hlt.
    split; [|split].
    + exists more; cbn [columns rows]; split; [exact Hc | split; [exact Hb|]].
      intros r Hin.
      apply in_combine_rows in Hin as [r0 [v [Hin ->]]]; cbn [fst snd].
      destruct (Hr r0 Hin) as [Hw Hl]; split.
      * now apply wide_row_set_nth.
      * now rewrite set_nth_length.
    + cbn [rows].
      now apply (combine_rows_length _ _ (fun p => set_nth i (snd p) (fst p))).
    + unfold get_column, locate; cbn [columns rows]; rewrite Hi; cbn [bindR ok].
      f_equal; rewrite map_map.
      apply map_combine_values; [exact Hlen|].
      intros r v Hin; cbn [fst snd].
      apply nth_set_nth; destruct (Hr r Hin) as [_ ->]; exact Hlt.
  - eexists; split; [reflexivity|].
    destruct (append_column_extends df name values Hext Hname Hlen)
      as [Hext' Hrows].
    split; [exact Hext' | split; [exact Hrows|]].
    destruct Hext as [more [Hc [Hb Hr]]].
    unfold get_column, locate; cbn [append_column columns rows].
    rewrite index_of_app, Hi; cbn [index_of].
    rewrite String.eqb_refl; cbn [option_map bindR ok].
    f_equal; rewrite map_map.
    apply map_combine_values; [exact Hlen|].
    intros r v Hin; cbn [fst snd].
    destruct (Hr r Hin) as [_ Hl].
    rewrite Nat.add_0_r, <- Hl, nth_middle; reflexivity.
Qed.

Lemma get_column_total_updates (df : DataFrame) :
  extends_consolidated df ->
  exists cs,
    get_column df "total_updates" = ok cs /\ length cs = length (rows df).
Proof.
  intros [more [Hc _]]; unfold get_column, locate; rewrite Hc.
  eexists; split; [reflexivity | apply length_map].
Qed.

Lemma groupby_transform_extends (df : DataFrame) (f : series -> float) :
  extends_consolidated df ->
  exists cs,
    groupby_transform df ["state"; "district"]%string "total_updates" f
    = ok cs
    /\ length cs = length (rows df).
Proof.
  intros [more [Hc [_ Hr]]]; unfold groupby_transform, locate_all, locate.
  rewrite Hc; cbn [consolidated_cols key_cols app mapR index_of String.eqb
                     Ascii.eqb Bool.eqb option_map bindR ok].
  apply mapR_total; intros r Hin.
  destruct (Hr r Hin) as [Hw _].
  destruct (wide_row_cells r Hw) as [s [d [y [m [a [b H]]]]]].
  destruct H as [H0 [H1 _]].
  unfold key_of at 1; cbn [map]; rewrite H0, H1; cbn [existsb isna orb].
  match goal with
  | |- context [mapR ?g ?l] =>
      destruct (mapR_total g l) as [vals [Hv _]]
  end.
  - intros r' Hin'; apply filter_In in Hin' as [Hin' _].
    destruct (Hr r' Hin') as [Hw' _].
    destruct (wide_row_cells r' Hw') as [? [? [? [? [? [b' H']]]]]].
    destruct H' as [_ [_ [_ [_ [_ H5]]]]]; rewrite H5.
    eexists; reflexivity.
  - rewrite Hv; eexists; reflexivity.
Qed.

Lemma unique_nonempty (c : cell) (l : list cell) : unique (c :: l) <> [].
Proof.
  revert c; induction l as [|c' l IH]; intros c; [easy|].
  cbn [unique]; destruct (existsb (cell_eqb c) (c' :: l)); [apply IH | easy].
Qed.

Lemma check_region_coverage_consolidated (rows' : list (list cell)) :
  rows' <> [] ->
  (forall r, In r rows' -> wide_row r) ->
  check_region_coverage (mkDataFrame consolidated_cols rows') "district"
  = ok tt.
Proof.
  intros Hne Hw; unfold check_region_coverage, get_column.
  cbn [locate consolidated_cols key_cols app index_of String.eqb Ascii.eqb
         Bool.eqb option_map columns rows bindR ok].
  destruct rows' as [|r rows']; [easy|].
  destruct (wide_row_cells r (Hw r (or_introl eq_refl)))
    as [s [d [y [m [a [b [_ [H1 _]]]]]]]].
  unfold nunique; cbn [map filter]; rewrite H1; cbn [isna negb].
  destruct (unique (CStr d :: _)) eqn:Hu;
    [now apply unique_nonempty in Hu | reflexivity].
Qed.

Lemma consolidated_row_wide (E D : list (region_month * Z)) (k : region_month) :
  wide_row (consolidated_row E D k) /\ length (consolidated_row E D k) = 6%nat.
Proof.
  split.
  - exists k, (count_of k E), (count_of k D), []; reflexivity.
  - unfold consolidated_row; rewrite length_app, key_cells_length; reflexivity.
Qed.

(** The consolidated table of two aggregates, the first of which has a row. *)
Lemma consolidate_two_extends (E D : list (region_month * Z)) :
  E <> [] -> NoDup (map fst E) -> NoDup (map fst D) ->
  exists rows',
    consolidate_two E D = ok (mkDataFrame consolidated_cols rows')
    /\ rows' <> []
    /\ extends_consolidated (mkDataFrame consolidated_cols rows').
Proof.
  intros Hne HE HD.
  destruct (consolidate_two_rows E D HE HD) as [rows' [Heq Hperm]].
  exists rows'; split; [exact Heq|].
  assert (forall r, In r rows' -> wide_row r /\ length r = 6%nat) as Hrows.
  { intros r Hin.
    apply (Permutation_in _ Hperm), in_map_iff in Hin as [k [<- _]].
    apply consolidated_row_wide. }
  split.
  - intros ->; apply Permutation_nil in Hperm.
    apply map_eq_nil in Hperm; unfold union_keys in Hperm.
    apply app_eq_nil in Hperm as [Hperm _].
    apply map_eq_nil in Hperm; contradiction.
  - exists []; cbn [columns rows]; rewrite app_nil_r.
    split; [reflexivity | split; [easy | exact Hrows]].
Qed.

Lemma mapR_to_float_scores (scores : list float) :
  mapR to_float (map CFloat scores) = ok scores.
Proof.
  induction scores as [|x l IH]; [reflexivity|].
  cbn [map mapR to_float bindR ok]; now rewrite IH.
Qed.

Lemma detect_anomalies_on_scores (scores : list float) (t : float) :
  exists flags,
    detect_anomalies_on (map CFloat scores) (YNum t) = ok flags
    /\ length flags = length scores.
Proof.
  unfold detect_anomalies_on; rewrite mapR_to_float_scores; cbn [bindR ok].
  eexists; split; [reflexivity|].
  unfold detect_anomalies, zscore.
  destruct (feqb (pd_std scores) (Fin 0));
    [apply repeat_length | now rewrite !length_map].
Qed.

Lemma as_mask_flags (flags : list bool) : as_mask (map CBool flags) = ok flags.
Proof.
  unfold as_mask; induction flags as [|b l IH]; [reflexivity|].
  cbn [map mapR bindR ok]; now rewrite IH.
Qed.

Lemma extends_consolidated_columns (df : DataFrame) :
  extends_consolidated df ->
  has_column "biometric_updates" (columns df) = false
  /\ has_column "enrolments" (columns df) = true
  /\ has_column "total_updates" (columns df) = true.
Proof.
  intros [more [Hc [Hb _]]]; rewrite Hc; repeat split.
  destruct (has_column "biometric_updates" (consolidated_cols ++ more)) eqn:H;
    [|reflexivity].
  apply has_column_In, in_app_iff in H as [H | H]; [|contradiction].
  simpl in H; intuition discriminate.
Qed.

Lemma new_column_names :
  ~ In "temporal_concentration"%string consolidated_cols
  /\ ~ In "lepi"%string consolidated_cols
  /\ ~ In "anomaly_flag"%string consolidated_cols.
Proof. repeat split; simpl; intuition discriminate. Qed.

(** A run in a cooperative world without a biometric file issues the calls
    of a two-source run and returns. *)
Lemma run_aleis_pipeline_two_sources :
  wp (fun X ev x => biometric_absent X ev x /\ environment X ev x)
    run_aleis_pipeline
    (fun tr _ =>
       map (fun c => event_name (called_event c)) tr = two_source_calls
       /\ Forall two_source_step tr).
Proof.
  destruct new_column_names as [Hn1 [Hn2 Hn3]].
  unfold run_aleis_pipeline, load_config.
  apply wp_bind_call; intros [] _.
  (* configuration *)
  apply wp_bind_call; intros config [_ Hcfg].
  destruct Hcfg as (lw & mw & th & t & H1 & H2 & H3 & H4).
  eapply wp_bind_lift; [exact H1|].
  eapply wp_bind_lift; [exact H2|].
  eapply wp_bind_lift; [exact H3|].
  eapply wp_bind_lift; [exact H4|].
  (* datasets *)
  apply wp_bind_call; intros enrol_df _.
  apply wp_bind_call; intros demo_df _.
  apply wp_bind_call; intros bio_exists [Habs _].
  cbn in Habs; rewrite (Habs eq_refl); cbn [bind].
  apply wp_bind_call; intros [] _.
  apply wp_bind_call; intros [] _.
  (* cleaning *)
  apply wp_bind_call; intros enrol_clean _.
  apply wp_bind_call; intros enrol_df' _.
  apply wp_bind_call; intros demo_clean _.
  apply wp_bind_call; intros demo_df' _.
  cbn [is_empty empty_frame columns negb bind].
  (* aggregation *)
  apply wp_bind_call; intros enrol_agg [_ HE].
  destruct (HE eq_refl) as (E & HEne & HEnd & ->); clear HE.
  apply wp_bind_call; intros demo_sum [_ HD].
  destruct (HD eq_refl) as (D & _ & HDnd & ->); clear HD.
  cbn [bind].
  (* consolidation *)
  destruct (consolidate_two_extends E D HEne HEnd HDnd)
    as (rows' & Hcons & Hrows & Hext).
  eapply wp_bind_lift; [exact Hcons|].
  apply wp_bind_call; intros [] _.
  apply wp_bind_call; intros [] _.
  eapply wp_bind_lift.
  { apply check_region_coverage_consolidated; [exact Hrows|].
    destruct Hext as [more [_ [_ Hr]]]; intros r Hin; now apply Hr. }
  (* features *)
  apply wp_bind_call; intros velocity [_ Hv].
  destruct Hv as (name & values & Hname & Hlen & ->).
  destruct (append_column_extends _ name values Hext Hname Hlen)
    as [Hext1 Hrows1].
  destruct (groupby_transform_extends _ temporal_concentration Hext1)
    as (tcs & Htc & Htclen).
  eapply wp_bind_lift; [exact Htc|].
  destruct (set_column_extends _ "temporal_concentration" tcs Hext1 Hn1
              ltac:(discriminate) Htclen)
    as (df2 & Hset2 & Hext2 & Hrows2 & Hget2).
  eapply wp_bind_lift; [exact Hset2|].
  (* indicator *)
  destruct (get_column_total_updates df2 Hext2) as (freq & Hfreq & Hfreqlen).
  eapply wp_bind_lift; [exact Hfreq|].
  eapply wp_bind_lift; [exact Hget2|].
  apply wp_bind_call; intros lepi [_ Hl].
  destruct Hl as (scores & -> & Hslen).
  destruct (set_column_extends df2 "lepi" (map CFloat scores) Hext2 Hn2
              ltac:(discriminate)
              ltac:(rewrite length_map; congruence))
    as (df3 & Hset3 & Hext3 & Hrows3 & Hget3).
  eapply wp_bind_lift; [exact Hset3|].
  (* anomaly detection *)
  eapply wp_bind_lift; [exact Hget3|].
  destruct (detect_anomalies_on_scores scores t) as (flags & Hdet & Hflen).
  eapply wp_bind_lift; [exact Hdet|].
  destruct (set_column_extends df3 "anomaly_flag" (map CBool flags) Hext3 Hn3
              ltac:(discriminate)
              ltac:(rewrite length_map; congruence))
    as (df4 & Hset4 & Hext4 & Hrows4 & Hget4).
  eapply wp_bind_lift; [exact Hset4|].
  (* outputs *)
  apply wp_bind_call; intros [] _.
  apply wp_bind_call; intros [] _.
  eapply wp_bind_lift; [exact Hget4|].
  eapply wp_bind_lift; [apply as_mask_flags|].
  apply wp_bind_call; intros policy_brief _.
  apply wp_bind_call; intros [] _.
  intros [] _.
  split; [reflexivity|].
  repeat constructor; try discriminate.
  all: now apply extends_consolidated_columns.
Qed.

(** C8.  In a world that has no biometric file, never raises, and whose
    modules answer as the spec describes them, the run returns normally; the
    calls it issues are those of a two-source run, without a biometric load,
    cleaning, aggregation or merge; and the table it writes has the columns
    [enrolments] and [total_updates] and no column [biometric_updates]. *)
Theorem biometric_absent_run_completes {W} (h : handler W) (w : W) :
  cooperative h ->
  outcome_of (run h run_aleis_pipeline w) = ok tt
  /\ map (fun c => event_name (called_event c))
       (trace_of (run h run_aleis_pipeline w))
     = two_source_calls
  /\ Forall two_source_step (trace_of (run h run_aleis_pipeline w)).
Proof.
  intros Hh.
  destruct (wp_run _ h run_aleis_pipeline Hh _ w
              run_aleis_pipeline_two_sources) as [[] [Hout [Hnames Hsteps]]].
  auto.
Qed.

Lemma scenario_world_cooperative : cooperative scenario_world.
Proof.
  intros X ev w; destruct ev; cbn [scenario_world];
    eexists; eexists; (split; [reflexivity | split]);
    cbn [biometric_absent environment]; auto.
  - exists (YMap [("frequency", YNum (Fin 0.5)); ("diversity", YNum (Fin 0.2));
                  ("temporal", YNum (Fin 0.3))]%string),
      (YMap []), (YMap [("anomaly_zscore", YNum (Fin 2.5))]%string), (Fin 2.5).
    repeat split.
  - intros _; exists enrol_scenario; repeat split; [discriminate|].
    repeat constructor; simpl; intuition discriminate.
  - exists "enrolment_velocity"%string,
      (repeat (CFloat (Fin 0)) (length (rows df))).
    repeat split; [discriminate | apply repeat_length].
  - exists (repeat (Fin 50) (operand_length freq)); split; [reflexivity|].
    destruct freq; [exact I | apply repeat_length].
Qed.

Lemma biometric_absent_run_completes_witness :
  outcome_of (run scenario_world run_aleis_pipeline tt) = ok tt
  /\ map (fun c => event_name (called_event c))
       (trace_of (run scenario_world run_aleis_pipeline tt))
     = two_source_calls
  /\ Forall two_source_step
       (trace_of (run scenario_world run_aleis_pipeline tt)).
Proof.
  apply (biometric_absent_run_completes scenario_world tt).
  exact scenario_world_cooperative.
Defined.

(** The scenario world reaches the indicator: [compute_lepi] is called. *)
Lemma scenario_run_calls_compute_lepi :
  In "compute_lepi"%string
    (map (fun c => event_name (called_event c))
       (trace_of (run scenario_world run_aleis_pipeline tt))).
Proof.
  destruct (wp_run _ scenario_world run_aleis_pipeline
              scenario_world_cooperative _ tt run_aleis_pipeline_two_sources)
    as [_ [_ [Hnames _]]].
  rewrite Hnames; unfold two_source_calls; simpl; tauto.
Qed.

(** ** The diversity argument *)

Lemma returns_after_run {W A} (h : handler W) (p : prog A) :
  forall (seen : bool) (w : W) (a : A),
    returns_after seen p ->
    outcome_of (run h p w) = ok a ->
    seen = true
    \/ Exists (fun c => is_compute_lepi (called_event c) = true)
         (trace_of (run h p w)).
Proof.
  induction p as [a' | e | X ev k IH]; intros seen w a Hp Ho.
  - left; exact Hp.
  - discriminate Ho.
  - cbn [run returns_after] in *.
    destruct (h X ev w) as [[e | x] w']; [discriminate Ho|].
    unfold outcome_of, trace_of in *; cbn [fst snd] in *.
    destruct (IH x _ w' a (Hp x) Ho) as [Hs | He].
    + apply orb_true_iff in Hs as [Hs | Hs];
        [left; exact Hs | right; apply Exists_cons_hd; exact Hs].
    + right; apply Exists_cons_tl; exact He.
Qed.

Ltac walk_returns :=
  repeat match goal with
    | |- True => exact I
    | |- forall _, _ => intro
    | |- _ = true => cbn [is_compute_lepi orb]; reflexivity
    | |- returns_after _ (Ret _) => cbn [returns_after]
    | |- returns_after _ (Raise _) => exact I
    | |- returns_after _ (Call _ _) => cbn [returns_after]
    | |- returns_after _ (bind (lift ?r) _) => destruct r; cbn [bind lift]
    | |- returns_after _ (bind (if ?b then _ else _) _) =>
        destruct b; cbn [bind]
    end.

(** No run of the pipeline returns without having called [compute_lepi]. *)
Lemma run_aleis_pipeline_returns_after_lepi :
  returns_after false run_aleis_pipeline.
Proof.
  unfold run_aleis_pipeline, load_config, call; cbn [bind].
  walk_returns.
Qed.

Lemma scenario_run_returns :
  outcome_of (run scenario_world run_aleis_pipeline tt) = ok tt.
Proof.
  destruct (wp_run _ scenario_world run_aleis_pipeline
              scenario_world_cooperative _ tt run_aleis_pipeline_two_sources)
    as [[] [Hout _]].
  exact Hout.
Qed.

(** C9.  In every run of the pipeline, whatever the world answers, each call
    of [compute_lepi] receives as its diversity argument the scalar 1, whose
    value on every row is 1; and a run that returns has made such a call: the
    indicator is never left out of a completed run, nor computed with another
    diversity. *)
Theorem diversity_is_placeholder {W} (h : handler W) (w : W) :
  Forall (fun c =>
            match called_event c with
            | ComputeLepi _ diversity _ _ =>
                diversity = Scalar (CInt 1)
                /\ forall i, operand_at diversity i = CInt 1
            | _ => True
            end)
    (trace_of (run h run_aleis_pipeline w))
  /\ (outcome_of (run h run_aleis_pipeline w) = ok tt ->
      exists (frequency temporal : operand) (weights : yaml),
        In (Called
              (ComputeLepi frequency (Scalar (CInt 1)) temporal weights))
          (trace_of (run h run_aleis_pipeline w))).
Proof.
  pose proof (all_calls_run _ h _ run_aleis_pipeline_diversity w) as Hall.
  split.
  - eapply Forall_impl; [| exact Hall].
    intros [X ev]; simpl.
    destruct ev; try easy.
    unfold placeholder_diversity.
    intros ->; split; [reflexivity | intros i; reflexivity].
  - intros Hout.
    destruct (returns_after_run h _ false w tt
                run_aleis_pipeline_returns_after_lepi Hout) as [Hs | Hex];
      [discriminate Hs|].
    apply Exists_exists in Hex as [[X ev] [Hin Hev]].
    rewrite Forall_forall in Hall; specialize (Hall _ Hin).
    destruct ev; try discriminate Hev.
    cbn [called_event placeholder_diversity] in Hall; subst.
    eexists; eexists; eexists; exact Hin.
Qed.

Lemma diversity_is_placeholder_witness :
  exists (frequency temporal : operand) (weights : yaml),
    In (Called (ComputeLepi frequency (Scalar (CInt 1)) temporal weights))
      (trace_of (run scenario_world run_aleis_pipeline tt)).
Proof.
  apply (proj2 (diversity_is_placeholder scenario_world tt)).
  exact scenario_run_returns.
Defined.

(** The guard is needed: joining with the empty table [pd.DataFrame()] that
    stands for the absent source would raise, for want of the key columns. *)
Lemma merge_outer_empty_frame_raises :
  merge_outer (agg_frame "enrolments" enrol_scenario) empty_frame key_cols
  = raise (KeyError "state").
Proof. reflexivity. Qed.

(** * Further properties of the analytic core *)

(** ** detect_anomalies *)

Lemma map_all_equal {A B} (f : A -> B) (b : B) (l : list A) :
  (forall a, In a l -> f a = b) -> map f l = repeat b (length l).
Proof.
  induction l as [|a l IH]; intros H; [reflexivity|].
  cbn [map length repeat]; rewrite (H a (or_introl eq_refl)), IH.
  - reflexivity.
  - intros a' Ha'; apply H; now right.
Qed.

Lemma flag_of_score_negative (z : float) (t : R) :
  t < 0 -> flag_of_score z (Fin t) = true.
Proof.
  intros Ht; unfold flag_of_score.
  destruct z; simpl; apply Rltb_true;
    match goal with |- _ < Rabs ?r => pose proof (Rabs_pos r); lra end.
Qed.

(** X2.  A negative threshold separates nothing: a series that passes the
    zero-deviation test is flagged in every element, whatever its values. *)
Theorem detect_anomalies_negative_threshold (s : series) (t : R) :
  t < 0 ->
  feqb (pd_std s) (Fin 0) = false ->
  detect_anomalies s (Fin t) = repeat true (length s).
Proof.
  intros Ht Hs; unfold detect_anomalies; rewrite Hs.
  rewrite <- (length_map (fun zi => fdiv (fsub zi (np_mean s)) (np_std s)) s).
  fold (zscore s).
  apply map_all_equal; intros z _.
  now apply flag_of_score_negative.
Qed.

Lemma detect_anomalies_negative_threshold_witness :
  detect_anomalies (map Fin [0; 2]) (Fin (-1))
  = repeat true (length (map Fin [0; 2])).
Proof.
  apply (detect_anomalies_negative_threshold (map Fin [0; 2]) (-1)).
  - lra.
  - exact pd_std_0_2_nonzero.
Defined.

(** ** Missing values *)

Lemma fadd_NaN_l (a : float) : fadd NaN a = NaN.
Proof. reflexivity. Qed.

Lemma fadd_NaN_r (a : float) : fadd a NaN = NaN.
Proof. now destruct a. Qed.

Lemma fold_fadd_NaN (s : series) : fold_left fadd s NaN = NaN.
Proof. induction s as [|a s IH]; [reflexivity | exact IH]. Qed.

(** A sum over a series that holds a [NaN] is [NaN]: numpy skips nothing. *)
Lemma fsum_missing (s : series) : In NaN s -> fsum s = NaN.
Proof.
  unfold fsum; generalize (Fin 0) as acc.
  induction s as [|a s IH]; intros acc Hin; [destruct Hin|].
  destruct Hin as [-> | Hin]; cbn [fold_left].
  - rewrite fadd_NaN_r; apply fold_fadd_NaN.
  - now apply IH.
Qed.

Lemma zscore_missing (s : series) :
  In NaN s -> zscore s = repeat NaN (length s).
Proof.
  intros H; unfold zscore, np_mean at 1.
  rewrite (fsum_missing s H); cbn [fdiv].
  apply map_all_equal; intros a _.
  unfold fsub; rewrite fadd_NaN_r; reflexivity.
Qed.

(** X20.  One missing value silences the detector: on a series that holds a
    [NaN] the mean numpy takes inside [zscore] is [NaN], every score is [NaN]
    and is coerced to zero, and at a threshold that is not negative no element
    is flagged, however far from the others it lies. *)
Theorem detect_anomalies_missing_value (s : series) (t : R) :
  In NaN s -> 0 <= t ->
  detect_anomalies s (Fin t) = repeat false (length s).
Proof.
  intros Hin Ht; unfold detect_anomalies.
  destruct (feqb (pd_std s) (Fin 0)); [reflexivity|].
  rewrite (zscore_missing s Hin), map_repeat.
  cbn [nan_to_num fabs fgtb]; rewrite Rabs_R0.
  f_equal; now apply Rltb_false.
Qed.

Lemma detect_anomalies_missing_value_witness :
  detect_anomalies [Fin 1; Fin 2; NaN; Fin 1000000] (Fin 2.5)
  = repeat false 4.
Proof.
  apply (detect_anomalies_missing_value
           [Fin 1; Fin 2; NaN; Fin 1000000] 2.5).
  - simpl; tauto.
  - lra.
Defined.

(** ** temporal_concentration *)

(** X8.  A series without a single observed value, empty or all missing, has
    no mean; the zero-mean guard does not apply and the result is NaN. *)
Theorem temporal_concentration_no_observation (s : series) :
  dropna s = [] -> temporal_concentration s = NaN.
Proof.
  intros H; unfold temporal_concentration, pd_mean; rewrite H.
  cbn [feqb]; now destruct (pd_std s).
Qed.

Lemma temporal_concentration_no_observation_witness :
  temporal_concentration [] = NaN /\ temporal_concentration [NaN; NaN] = NaN.
Proof.
  split.
  - apply (temporal_concentration_no_observation []); reflexivity.
  - apply (temporal_concentration_no_observation [NaN; NaN]); reflexivity.
Defined.

(** ** check_region_coverage *)

(** X10.  A table without the named region column is refused with a
    [KeyError] naming that column, before any coverage is counted. *)
Theorem check_region_coverage_missing_column
  (df : DataFrame) (region_col : string) :
  ~ In region_col (columns df) ->
  check_region_coverage df region_col = raise (KeyError region_col).
Proof.
  intros H; unfold check_region_coverage, get_column, locate.
  now rewrite (index_of_absent _ _ H).
Qed.

Lemma check_region_coverage_missing_column_witness :
  check_region_coverage one_region "region" = raise (KeyError "region").
Proof.
  apply (check_region_coverage_missing_column one_region "region").
  simpl; intuition discriminate.
Defined.

Lemma unique_nil_iff (l : list cell) : unique l = [] <-> l = [].
Proof.
  split; [|now intros ->].
  destruct l as [|c l]; [reflexivity|].
  intros H; now apply unique_nonempty in H.
Qed.

Lemma nunique_zero (col : list cell) :
  nunique col = 0%nat <-> forall c, In c col -> isna c = true.
Proof.
  unfold nunique; rewrite length_zero_iff_nil, unique_nil_iff.
  split.
  - intros H c Hc.
    destruct (isna c) eqn:E; [reflexivity|].
    assert (In c (filter (fun c => negb (isna c)) col)) as Hin
        by (apply filter_In; now rewrite E).
    rewrite H in Hin; destruct Hin.
  - intros H; induction col as [|c col IH]; [reflexivity|].
    cbn [filter]; rewrite (H c (or_introl eq_refl)); cbn [negb].
    apply IH; intros c' Hc'; apply H; now right.
Qed.

(** X11.  On a table with distinct column labels that has the region column
    the warning is raised exactly when no row carries a region identifier:
    every cell of the column is missing, which includes the table without
    rows. *)
Theorem check_region_coverage_warns_iff
  (df : DataFrame) (region_col : string) (col : list cell) :
  NoDup (columns df) ->
  get_column df region_col = ok col ->
  check_region_coverage df region_col = raise low_coverage
  <-> forall c, In c col -> isna c = true.
Proof.
  intros _ Hc; rewrite <- nunique_zero.
  unfold check_region_coverage; rewrite Hc; cbn [bindR ok].
  destruct (Nat.ltb_spec (nunique col) 1) as [Hlt | Hge].
  - split; [intros _; lia | reflexivity].
  - split; [discriminate | intros H; lia].
Qed.

Lemma state_district_distinct : NoDup ["state"; "district"]%string.
Proof. repeat constructor; simpl; intuition discriminate. Qed.

(** A table whose only region identifier is missing is warned about; a table
    with a region identifier in a row is not. *)
Lemma check_region_coverage_warns_iff_witness :
  check_region_coverage no_region "district" = raise low_coverage
  /\ check_region_coverage one_region "district" <> raise low_coverage.
Proof.
  split.
  - apply (check_region_coverage_warns_iff no_region "district" [CNone]
             state_district_distinct eq_refl).
    intros c [<- | []]; reflexivity.
  - intros H.
    apply (check_region_coverage_warns_iff one_region "district"
             [CStr "Pune"; CStr "Pune"] state_district_distinct eq_refl)
      with (c := CStr "Pune") in H; [discriminate H | now left].
Defined.

(** ** Totals under consolidation *)

Lemma int_total_perm (l l' : list cell) :
  Permutation l l' -> int_total l = int_total l'.
Proof.
  induction 1 as [| c l l' _ IH | c c' l | l l' l'' _ IH1 _ IH2]; simpl.
  - reflexivity.
  - now rewrite IH.
  - destruct c, c'; lia.
  - congruence.
Qed.

Lemma int_total_app (l l' : list cell) :
  int_total (l ++ l') = (int_total l + int_total l')%Z.
Proof.
  induction l as [|c l IH]; simpl; [reflexivity|].
  rewrite IH; destruct c; lia.
Qed.

(** The counts a source holds for its own keys add up to its total. *)
Lemma int_total_own_keys (E : list (region_month * Z)) :
  NoDup (map fst E) ->
  int_total (map (fun k => CInt (count_of k E)) (map fst E)) = total_count E.
Proof.
  intros HE; rewrite map_map.
  assert (forall F, (forall e, In e F -> In e E) ->
            int_total (map (fun e => CInt (count_of (fst e) E)) F)
            = total_count F) as H.
  { induction F as [|e F IH]; intros Hin; [reflexivity|].
    cbn [map int_total total_count fold_right].
    rewrite (count_of_present e E HE) by (apply Hin; now left).
    fold (int_total (map (fun e => CInt (count_of (fst e) E)) F)).
    fold (total_count F).
    rewrite IH by (intros e' He'; apply Hin; now right); reflexivity. }
  now apply H.
Qed.

(** Keys a source does not hold contribute nothing. *)
Lemma int_total_foreign_keys (E : list (region_month * Z))
  (ks : list region_month) :
  (forall k, In k ks -> has_key k E = false) ->
  int_total (map (fun k => CInt (count_of k E)) ks) = 0%Z.
Proof.
  induction ks as [|k ks IH]; intros H; [reflexivity|].
  cbn [map int_total fold_right].
  fold (int_total (map (fun k => CInt (count_of k E)) ks)).
  rewrite count_of_absent by (apply H; now left).
  rewrite IH by (intros k' Hk'; apply H; now right); reflexivity.
Qed.

Lemma int_total_union_keys (E D : list (region_month * Z)) :
  NoDup (map fst E) ->
  int_total (map (fun k => CInt (count_of k E)) (union_keys E D))
  = total_count E.
Proof.
  intros HE; unfold union_keys.
  rewrite map_app, int_total_app, int_total_own_keys by exact HE.
  rewrite int_total_foreign_keys; [lia|].
  intros k Hk; apply in_map_iff in Hk as [d [<- Hd]].
  apply filter_In in Hd as [_ Hd].
  now destruct (has_key (fst d) E).
Qed.

Lemma union_keys_swap (E D : list (region_month * Z)) :
  NoDup (map fst E) -> NoDup (map fst D) ->
  Permutation (union_keys E D) (union_keys D E).
Proof.
  intros HE HD; apply NoDup_Permutation.
  - now apply union_keys_NoDup.
  - now apply union_keys_NoDup.
  - intros k; rewrite !union_keys_In; tauto.
Qed.

(** X12.  Consolidation loses and invents no count: over the consolidated
    table of two aggregates the [enrolments] column adds up to the total of
    the enrolment source and the [total_updates] column to the total of the
    demographic source. *)
Theorem consolidation_preserves_totals (E D : list (region_month * Z)) :
  NoDup (map fst E) -> NoDup (map fst D) ->
  exists df enrolments updates,
    consolidate_two E D = ok df
    /\ get_column df "enrolments" = ok enrolments
    /\ get_column df "total_updates" = ok updates
    /\ int_total enrolments = total_count E
    /\ int_total updates = total_count D.
Proof.
  intros HE HD.
  destruct (consolidate_two_rows E D HE HD) as [rows' [Heq Hperm]].
  eexists; eexists; eexists.
  split; [exact Heq | split; [reflexivity | split; [reflexivity | split]]].
  - cbn [rows].
    rewrite (int_total_perm _ _ (Permutation_map _ Hperm)), map_map.
    rewrite <- (int_total_union_keys E D HE).
    f_equal; apply map_ext; intros [[[s d] y] m]; reflexivity.
  - cbn [rows].
    rewrite (int_total_perm _ _ (Permutation_map _ Hperm)), map_map.
    rewrite <- (int_total_union_keys D E HD).
    rewrite (int_total_perm _ _
               (Permutation_map _ (union_keys_swap E D HE HD))).
    f_equal; apply map_ext; intros [[[s d] y] m]; reflexivity.
Qed.

Lemma consolidation_preserves_totals_witness :
  exists df enrolments updates,
    consolidate_two enrol_scenario demo_scenario = ok df
    /\ get_column df "enrolments" = ok enrolments
    /\ get_column df "total_updates" = ok updates
    /\ int_total enrolments = total_count enrol_scenario
    /\ int_total updates = total_count demo_scenario.
Proof.
  apply (consolidation_preserves_totals enrol_scenario demo_scenario).
  - exact (proj1 scenario_keys_unique).
  - exact (proj2 scenario_keys_unique).
Defined.

(** ** Consolidation of three sources *)

Lemma key_of_key_cells (k : region_month) (rest : list cell) :
  key_of [0; 1; 2; 3]%nat (key_cells k ++ rest) = key_cells k.
Proof. destruct k as [[[s d] y] m]; reflexivity. Qed.

Section ThirdSource.

(** The consolidated rows so far, as keys with their two counts, and the
    entries of the biometric aggregate. *)
Variable L : list (region_month * (Z * Z)).
Variable B : list (region_month * Z).
Hypothesis unique_B : NoDup (map fst B).

Let fill := map (fun c => if isna c then CInt 0 else c).
Let row2 (l : region_month * (Z * Z)) :=
  key_cells (fst l) ++ [CInt (fst (snd l)); CInt (snd (snd l))].
Let row (e : region_month * Z) := key_cells (fst e) ++ [CInt (snd e)].
Let bio_cols :=
  ["state"; "district"; "year"; "month"; "biometric_updates"]%string.
Let held (k : region_month) := existsb (fun l => rm_eqb (fst l) k) L.

Lemma matched_of_consolidated (k : region_month) :
  existsb (fun l => key_eqb (key_of [0; 1; 2; 3]%nat l) (key_cells k))
    (map row2 L)
  = held k.
Proof.
  rewrite existsb_map; unfold held.
  induction L as [|l L' IH]; cbn [existsb]; [easy|].
  unfold row2 at 1; rewrite key_of_key_cells, key_eqb_cells.
  now rewrite IH.
Qed.

Lemma non_key_bio_row (b : region_month * Z) :
  non_key key_cols bio_cols (row b) = [CInt (snd b)].
Proof. destruct b as [[[[s di] y] m] v]; reflexivity. Qed.

Lemma left_shaped_bio_row (b : region_month * Z) :
  left_shaped key_cols consolidated_cols bio_cols (row b)
  = key_cells (fst b) ++ [CFloat NaN; CFloat NaN].
Proof. destruct b as [[[[s di] y] m] v]; reflexivity. Qed.

Lemma merge_third_rows :
  exists rows',
    (m <- merge_outer (mkDataFrame consolidated_cols (map row2 L))
           (rename (agg_frame "total_updates" B)
              "total_updates" "biometric_updates") key_cols ;;
     ok (fillna0 m))%result
    = ok (mkDataFrame (consolidated_cols ++ ["biometric_updates"%string])
            rows')
    /\ Permutation rows'
         (map (fun l => row2 l ++ [CInt (count_of (fst l) B)]) L
          ++ map (fun b => key_cells (fst b) ++ [CInt 0; CInt 0; CInt (snd b)])
               (filter (fun b => negb (held (fst b))) B)).
Proof.
  unfold merge_outer, agg_frame, rename, consolidated_cols.
  cbn -[key_eqb key_of non_key left_shaped sort_rows].
  unfold fillna0; cbn [columns rows].
  eexists; split; [reflexivity|].
  fold fill; fold row; fold row2; fold bio_cols.
  change ["state"; "district"; "year"; "month"; "enrolments";
          "total_updates"]%string with consolidated_cols.
  eapply perm_trans; [apply Permutation_map, sort_rows_perm|].
  rewrite map_app, !flat_map_map.
  match goal with
  | |- Permutation (?a ++ ?b) (?a' ++ ?b') =>
      assert (a = a') as ->; [| assert (b = b') as ->; [| reflexivity]]
  end.
  - apply map_flat_map_singleton; intros l _.
    unfold row2 at 1; rewrite key_of_key_cells, (partners_of B).
    fold row.
    destruct (has_key (fst l) B) eqn:Hk.
    + rewrite filter_key_present by assumption.
      cbn [map]; rewrite non_key_bio_row; cbn [snd].
      unfold row2; rewrite <- !app_assoc, fill_key_cells; reflexivity.
    + rewrite filter_key_absent, count_of_absent by assumption.
      cbn [map]; unfold row2; rewrite <- !app_assoc, fill_key_cells.
      reflexivity.
  - apply map_flat_map_filter; intros b _.
    unfold row at 1; rewrite key_of_agg_row, matched_of_consolidated.
    destruct (held (fst b)); cbn [negb map]; [reflexivity|].
    rewrite left_shaped_bio_row, non_key_bio_row.
    rewrite <- app_assoc, fill_key_cells; reflexivity.
Qed.

End ThirdSource.

Lemma held_In (ks : list region_month) (f : region_month -> Z * Z)
  (k : region_month) :
  existsb (fun l => rm_eqb (fst l) k) (map (fun k => (k, f k)) ks) = true
  <-> In k ks.
Proof.
  rewrite existsb_exists; split.
  - intros [l [Hl Hk]]; apply in_map_iff in Hl as [k' [<- Hk']].
    apply rm_eqb_eq in Hk; cbn [fst] in Hk; now subst.
  - intros H; exists (k, f k); split; [|now apply rm_eqb_eq].
    apply (in_map (fun k => (k, f k))); exact H.
Qed.

Lemma key_of_consolidated_row3 (E D B : list (region_month * Z))
  (k : region_month) :
  key_of [0; 1; 2; 3]%nat (consolidated_row3 E D B k) = key_cells k.
Proof. apply key_of_key_cells. Qed.

(** The consolidated table of three sources, up to the order of its rows. *)
Lemma consolidate_three_rows (E D B : list (region_month * Z)) :
  NoDup (map fst E) -> NoDup (map fst D) -> NoDup (map fst B) ->
  B <> [] ->
  exists rows' keys,
    consolidate_three E D B
    = ok (mkDataFrame (consolidated_cols ++ ["biometric_updates"%string])
            rows')
    /\ Permutation rows' (map (consolidated_row3 E D B) keys)
    /\ NoDup keys
    /\ forall k,
         In k keys <->
         In k (map fst E) \/ In k (map fst D) \/ In k (map fst B).
Proof.
  intros HE HD HB HBne.
  destruct (consolidate_two_rows E D HE HD) as [rows2 [Heq Hperm]].
  apply Permutation_map_inv in Hperm as [ks [-> Hks]].
  assert (NoDup ks) as Hnd
      by (apply (Permutation_NoDup Hks); now apply union_keys_NoDup).
  assert (forall k, In k ks <-> In k (map fst E) \/ In k (map fst D)) as Hin.
  { intros k; rewrite <- union_keys_In; split; intros H.
    - now apply (Permutation_in _ (Permutation_sym Hks)).
    - now apply (Permutation_in _ Hks). }
  set (pair_of := fun k => (count_of k E, count_of k D)).
  set (L := map (fun k => (k, pair_of k)) ks).
  destruct (merge_third_rows L B HB) as [rows' [Hm Hp]].
  set (fresh := filter
                  (fun b => negb (existsb (fun l => rm_eqb (fst l) (fst b)) L))
                  B) in Hp.
  assert (forall b, In b fresh ->
            In b B /\ ~ In (fst b) (map fst E) /\ ~ In (fst b) (map fst D))
    as Hfresh.
  { intros b Hb; apply filter_In in Hb as [Hb Hh]; split; [exact Hb|].
    assert (~ In (fst b) ks) as Hn.
    { intros Hk; apply (held_In ks pair_of) in Hk.
      unfold L in Hh; rewrite Hk in Hh; discriminate. }
    rewrite Hin in Hn; tauto. }
  assert (Permutation rows'
            (map (consolidated_row3 E D B) (ks ++ map fst fresh))) as Hrows.
  { eapply perm_trans; [exact Hp|].
    rewrite map_app.
    match goal with
    | |- Permutation (?a ++ ?b) (?a' ++ ?b') =>
        assert (a = a') as ->; [| assert (b = b') as ->; [| reflexivity]]
    end.
    - unfold L; rewrite map_map; apply map_ext; intros k.
      unfold consolidated_row3; cbn [fst snd pair_of].
      now rewrite <- app_assoc.
    - rewrite map_map; apply map_ext_in; intros b Hb.
      destruct (Hfresh b Hb) as [HbB [HnE HnD]].
      unfold consolidated_row3.
      rewrite (count_of_present b B HB HbB).
      rewrite !count_of_absent; [reflexivity | |].
      + destruct (has_key (fst b) D) eqn:Hk; [|reflexivity].
        apply has_key_In in Hk; contradiction.
      + destruct (has_key (fst b) E) eqn:Hk; [|reflexivity].
        apply has_key_In in Hk; contradiction. }
  exists rows', (ks ++ map fst fresh); split; [|split; [exact Hrows | split]].
  - unfold consolidate_three, consolidate.
    unfold consolidate_two, consolidate in Heq.
    destruct (merge_outer (agg_frame "enrolments" E)
                (rename (agg_frame "enrolments" D) "enrolments"
                   "total_updates") key_cols) as [e | m];
      cbn [bindR is_empty empty_frame columns negb] in Heq |- *;
      [discriminate|].
    assert (fillna0 m
            = mkDataFrame (key_cols ++ ["enrolments"; "total_updates"]%string)
                (map (consolidated_row E D) ks)) as Hfill
        by (unfold ok in Heq; congruence).
    assert (is_empty (rename (agg_frame "total_updates" B) "total_updates"
                        "biometric_updates") = false) as ->
        by (destruct B; [contradiction | reflexivity]).
    cbn [negb]; rewrite Hfill.
    rewrite <- Hm; unfold L; rewrite map_map; reflexivity.
  - apply NoDup_app; [exact Hnd | |].
    + apply keys_filter_NoDup; exact HB.
    + intros k Hk Hk'.
      apply in_map_iff in Hk' as [b [<- Hb]].
      destruct (Hfresh b Hb) as [_ [HnE HnD]].
      apply Hin in Hk; tauto.
  - intros k; rewrite in_app_iff; split.
    + intros [Hk | Hk]; [apply Hin in Hk; tauto|].
      apply in_map_iff in Hk as [b [<- Hb]].
      destruct (Hfresh b Hb) as [HbB _].
      right; right; now apply in_map.
    + intros Hk.
      destruct (existsb (fun l => rm_eqb (fst l) k) L) eqn:Hh;
        [left; now apply (held_In ks pair_of) | right].
      destruct Hk as [Hk | [Hk | Hk]].
      * assert (In k ks) as Hk' by (apply Hin; tauto).
        apply (held_In ks pair_of) in Hk'; unfold L in Hh; congruence.
      * assert (In k ks) as Hk' by (apply Hin; tauto).
        apply (held_In ks pair_of) in Hk'; unfold L in Hh; congruence.
      * apply in_map_iff in Hk as [b [<- Hb]].
        apply in_map, filter_In; split; [exact Hb | now rewrite Hh].
Qed.

(** X13.  With a biometric aggregate that has rows, the consolidation has the
    seven columns of the keys, [enrolments], [total_updates] and
    [biometric_updates]; its rows are exactly the consolidated rows of the
    keys found in any of the three sources, one row per key, a count missing
    from a source being zero. *)
Theorem consolidation_three_sources (E D B : list (region_month * Z)) :
  NoDup (map fst E) -> NoDup (map fst D) -> NoDup (map fst B) ->
  B <> [] ->
  exists rows',
    consolidate_three E D B
    = ok (mkDataFrame (consolidated_cols ++ ["biometric_updates"%string])
            rows')
    /\ (forall r,
           In r rows' <->
           exists k,
             (In k (map fst E) \/ In k (map fst D) \/ In k (map fst B))
             /\ r = consolidated_row3 E D B k)
    /\ NoDup (map (key_of [0; 1; 2; 3]%nat) rows').
Proof.
  intros HE HD HB HBne.
  destruct (consolidate_three_rows E D B HE HD HB HBne)
    as (rows' & keys & Heq & Hrows & Hnd & Hin).
  exists rows'; split; [exact Heq | split].
  - intros r; split.
    + intros Hr.
      apply (Permutation_in _ Hrows), in_map_iff in Hr as [k [<- Hk]].
      exists k; split; [now apply Hin | reflexivity].
    + intros [k [Hk ->]].
      apply (Permutation_in _ (Permutation_sym Hrows)), in_map.
      now apply Hin.
  - apply (Permutation_NoDup
             (Permutation_map _ (Permutation_sym Hrows))).
    rewrite map_map.
    rewrite (map_ext _ key_cells)
      by (intros; apply key_of_consolidated_row3).
    apply Finite.Injective_map_NoDup; [intros k k'; apply key_cells_inj|].
    exact Hnd.
Qed.

Lemma consolidation_three_sources_witness :
  exists rows',
    consolidate_three enrol_scenario demo_scenario bio_scenario
    = ok (mkDataFrame (consolidated_cols ++ ["biometric_updates"%string])
            rows')
    /\ (forall r,
           In r rows' <->
           exists k,
             (In k (map fst enrol_scenario) \/ In k (map fst demo_scenario)
              \/ In k (map fst bio_scenario))
             /\ r = consolidated_row3 enrol_scenario demo_scenario
                      bio_scenario k)
    /\ NoDup (map (key_of [0; 1; 2; 3]%nat) rows').
Proof.
  apply (consolidation_three_sources enrol_scenario demo_scenario
           bio_scenario).
  - exact (proj1 scenario_keys_unique).
  - exact (proj2 scenario_keys_unique).
  - repeat constructor; simpl; tauto.
  - discriminate.
Defined.

(** ** Order of calls, whatever the world *)

Lemma calls_after_run {W A} (P : list string -> forall X, event X -> Prop)
  (h : handler W) (p : prog A) :
  forall hist w,
    calls_after P hist p -> trace_after P hist (trace_of (run h p w)).
Proof.
  induction p as [a | e | X ev k IH]; intros hist w Hp; try exact I.
  destruct Hp as [Hev Hk]; cbn [run].
  destruct (h X ev w) as [[e | x] w']; unfold trace_of; cbn [fst].
  - split; [exact Hev | exact I].
  - split; [exact Hev | apply IH, Hk].
Qed.

Lemma index_of_Some_In (name : string) (cols : list string) (i : nat) :
  index_of name cols = Some i -> In name cols.
Proof.
  intros H; destruct (in_dec string_dec name cols) as [Hin | Hn];
    [exact Hin|].
  rewrite (index_of_absent _ _ Hn) in H; discriminate.
Qed.

Lemma has_column_app (name : string) (cols more : list string) :
  has_column name (cols ++ more)
  = has_column name cols || has_column name more.
Proof. unfold has_column; apply existsb_app. Qed.

(** Assigning a column keeps the columns there are and makes sure of the
    assigned one. *)
Lemma set_column_columns (df df' : DataFrame) (name : string)
  (values : list cell) :
  set_column df name values = ok df' ->
  has_column name (columns df') = true
  /\ forall c, has_column c (columns df) = true ->
               has_column c (columns df') = true.
Proof.
  unfold set_column.
  destruct (negb (length values =? length (rows df))%nat); [discriminate|].
  destruct (index_of name (columns df)) as [i|] eqn:Hi; intros [= <-];
    cbn [columns append_column].
  - split; [|trivial].
    apply has_column_In; now apply index_of_Some_In in Hi.
  - split.
    + rewrite has_column_app; cbn [has_column existsb].
      rewrite String.eqb_refl; apply orb_true_iff; right; reflexivity.
    + intros c Hc; rewrite has_column_app, Hc; reflexivity.
Qed.

Lemma assign_columns (df df' : DataFrame) (name : string) (value : operand) :
  assign df name value = ok df' ->
  has_column name (columns df') = true
  /\ forall c, has_column c (columns df) = true ->
               has_column c (columns df') = true.
Proof. destruct value; apply set_column_columns. Qed.

(** One step of a walk along the tree of the pipeline: a call, a step of
    [main.py] that may raise, a branch. *)
Ltac walk_step solve_event :=
  match goal with
  | |- True => exact I
  | |- _ /\ _ => split; [solve_event |]
  | |- forall _, _ => intro
  | |- calls_after _ _ (Ret _) => exact I
  | |- calls_after _ _ (Raise _) => exact I
  | |- calls_after _ _ (Call _ _) => cbn [calls_after]
  | |- calls_after _ _ (bind (lift ?r) _) =>
      let E := fresh "E" in
      destruct r eqn:E; cbn [bind lift]
  | |- calls_after _ _ (bind (if ?b then _ else _) _) =>
      destruct b; cbn [bind]
  end.

Ltac solve_write_after_checks :=
  first [ exact I | cbv; repeat split; reflexivity ].

(** X14.  In every run, whatever the world answers, the table is written at
    most once and only after both [check_empty] calls and both
    [validate_non_negative] calls have returned, and the brief is written
    only after the table. *)
Theorem writes_follow_checks {W} (h : handler W) (w : W) :
  trace_after write_after_checks [] (trace_of (run h run_aleis_pipeline w)).
Proof.
  apply calls_after_run.
  unfold run_aleis_pipeline, load_config, call; cbn [bind].
  repeat walk_step solve_write_after_checks.
Qed.

Ltac solve_derived_columns :=
  first
    [ exact I
    | repeat match goal with
        | H : set_column _ _ _ = inr _ |- _ =>
            apply set_column_columns in H; destruct H
        | H : assign _ _ _ = inr _ |- _ =>
            apply assign_columns in H; destruct H
        end;
      cbn [derived_columns]; repeat split; auto ].

(** X15.  In every run, whatever the world answers, a table handed to
    [to_csv] has the columns [temporal_concentration], [lepi] and
    [anomaly_flag]. *)
Theorem written_table_has_derived_columns {W} (h : handler W) (w : W) :
  trace_after derived_columns [] (trace_of (run h run_aleis_pipeline w)).
Proof.
  apply calls_after_run.
  unfold run_aleis_pipeline, load_config, call; cbn [bind].
  repeat walk_step solve_derived_columns.
Qed.

(** ** Errors of the configuration *)

Lemma run_bind_call {W X B} (h : handler W) (ev : event X) (f : X -> prog B)
  (w w' : W) (x : X) :
  h X ev w = (ok x, w') ->
  run h (bind (call ev) f) w
  = (Called ev :: trace_of (run h (f x) w'),
     outcome_of (run h (f x) w'), world_of (run h (f x) w')).
Proof. intros H; cbn [call bind run]; now rewrite H. Qed.

(** X16.  A configuration in which one of the four lookups of the pipeline
    fails ends the run with that error right after the configuration is
    read: no dataset is loaded and nothing is written.  The lookup of
    [mobility] is one of them, although its result is never used. *)
Theorem config_error_aborts {W} (h : handler W) (w : W) (config : yaml)
  (e : exn) :
  (forall msg w0, exists w', h _ (Print msg) w0 = (ok tt, w')) ->
  (forall p w0, exists w', h _ (ReadYaml p) w0 = (ok config, w')) ->
  config_lookups config = raise e ->
  outcome_of (run h run_aleis_pipeline w) = raise e
  /\ map (fun c => event_name (called_event c))
       (trace_of (run h run_aleis_pipeline w))
     = ["print"; "yaml.safe_load"]%string.
Proof.
  intros Hprint Hyaml Hcfg; unfold run_aleis_pipeline, load_config.
  destruct (Hprint "Starting ALEIS Pipeline..."%string w) as [w1 H1].
  rewrite (run_bind_call _ _ _ _ _ _ H1).
  destruct (Hyaml config_path w1) as [w2 H2].
  rewrite (run_bind_call _ _ _ _ _ _ H2).
  unfold config_lookups in Hcfg.
  destruct (yaml_get config "lepi") as [e1 | lw];
    [injection Hcfg as <-; split; reflexivity|].
  destruct (yaml_get config "mobility") as [e2 | mw];
    [injection Hcfg as <-; split; reflexivity|].
  destruct (yaml_get config "thresholds") as [e3 | th];
    [injection Hcfg as <-; split; reflexivity|].
  cbn [bindR] in Hcfg; cbn [bind lift]; rewrite Hcfg.
  split; reflexivity.
Qed.

Lemma config_error_aborts_witness :
  outcome_of (run world_without_mobility run_aleis_pipeline tt)
  = raise (KeyError "mobility")
  /\ map (fun c => event_name (called_event c))
       (trace_of (run world_without_mobility run_aleis_pipeline tt))
     = ["print"; "yaml.safe_load"]%string.
Proof.
  apply (config_error_aborts world_without_mobility tt
           config_without_mobility (KeyError "mobility")).
  - intros msg []; exists tt; reflexivity.
  - intros p []; exists tt; reflexivity.
  - reflexivity.
Defined.

(** ** Lost data *)

Lemma wp_outcome_run {W A} (R : forall X, event X -> X -> Prop)
  (h : handler W) (p : prog A) :
  (forall X (ev : event X) (w : W),
      exists x w', h X ev w = (ok x, w') /\ R X ev x) ->
  forall (Q : list call_record -> result A -> Prop) (w : W),
    wp_outcome R p Q ->
    Q (trace_of (run h p w)) (outcome_of (run h p w)).
Proof.
  intros Hh; induction p as [a | e | X ev k IH]; intros Q w Hwp;
    try exact Hwp.
  cbn [run]; destruct (Hh X ev w) as [x [w' [Heq HR]]]; rewrite Heq.
  exact (IH x _ w' (Hwp x HR)).
Qed.

Ltac drained_step :=
  match goal with
  | |- forall _, _ => intro
  | H : drained _ (AggregateMonthly _ _ _) _ |- _ =>
      cbn [drained] in H; specialize (H eq_refl); subst
  | H : drained _ (ReadYaml _) _ |- _ =>
      cbn [drained] in H; destruct H as (? & ? & ? & ? & ? & ? & ? & ?)
  | H : drained _ _ _ |- _ => clear H
  | |- wp_outcome _ (Call _ _) _ => cbn [wp_outcome]
  | H : ?r = ok _ |- wp_outcome _ (bind (lift ?r) _) _ =>
      rewrite H; cbn [bind lift ok]
  | |- wp_outcome _ (bind (if ?b then _ else _) _) _ =>
      destruct b; cbn [bind]
  | |- wp_outcome _ (bind (lift (consolidate _ _ _)) _) _ => progress cbn
  | |- _ /\ nothing_written _ =>
      split; [reflexivity | unfold nothing_written; cbn; split; reflexivity]
  end.

Lemma run_aleis_pipeline_drained :
  wp_outcome drained run_aleis_pipeline
    (fun tr r => r = raise low_coverage /\ nothing_written tr).
Proof.
  unfold run_aleis_pipeline, load_config, call; cbn [bind].
  repeat drained_step.
Qed.

(** X17.  When every monthly aggregate comes back without a row, the run is
    stopped by [check_region_coverage] with its low-coverage warning, and
    neither the table nor the brief is written. *)
Theorem lost_data_aborts {W} (h : handler W) (w : W) :
  (forall X (ev : event X) (w0 : W),
      exists x w', h X ev w0 = (ok x, w') /\ drained X ev x) ->
  outcome_of (run h run_aleis_pipeline w) = raise low_coverage
  /\ nothing_written (trace_of (run h run_aleis_pipeline w)).
Proof.
  intros Hh.
  exact (wp_outcome_run _ h run_aleis_pipeline Hh _ w
           run_aleis_pipeline_drained).
Qed.

Lemma drained_world_drained :
  forall X (ev : event X) (w0 : unit),
  exists x w', drained_world X ev w0 = (ok x, w') /\ drained X ev x.
Proof.
  intros X ev w0; destruct ev; cbn [drained_world scenario_world];
    eexists; eexists; (split; [reflexivity|]); cbn [drained]; auto.
  exists (YMap [("frequency", YNum (Fin 0.5)); ("diversity", YNum (Fin 0.2));
                ("temporal", YNum (Fin 0.3))]%string),
    (YMap []), (YMap [("anomaly_zscore", YNum (Fin 2.5))]%string), (Fin 2.5).
  repeat split.
Qed.

Lemma lost_data_aborts_witness :
  outcome_of (run drained_world run_aleis_pipeline tt) = raise low_coverage
  /\ nothing_written (trace_of (run drained_world run_aleis_pipeline tt)).
Proof.
  apply (lost_data_aborts drained_world tt).
  exact drained_world_drained.
Defined.

(** ** The flags a run writes *)

Lemma index_of_nth (name : string) (cols : list string) (i : nat) :
  index_of name cols = Some i -> nth i cols ""%string = name.
Proof.
  revert i; induction cols as [|c cols IH]; simpl; [discriminate|].
  intros i; destruct (String.eqb_spec c name) as [-> | _].
  - now intros [= <-].
  - destruct (index_of name cols) as [j|]; [|discriminate].
    intros [= <-]; now apply IH.
Qed.

Lemma nth_set_nth_other {A} (i j : nat) (a d : A) (l : list A) :
  i <> j -> nth j (set_nth i a l) d = nth j l d.
Proof.
  revert i j; induction l as [|b l IH]; intros [|i] [|j] H; simpl;
    try reflexivity; try lia.
  apply IH; lia.
Qed.

Lemma map_combine_rows {A B C} (g : A * B -> C) (g' : A -> C)
  (l : list A) (vs : list B) :
  length vs = length l ->
  (forall a v, In a l -> g (a, v) = g' a) ->
  map g (combine l vs) = map g' l.
Proof.
  revert vs; induction l as [|a l IH]; intros [|v vs] Hlen Hg;
    simpl in *; try lia; [reflexivity|].
  rewrite Hg by auto; f_equal; apply IH; [lia | auto].
Qed.

(** Assigning a column leaves the other columns as they are. *)
Lemma set_column_keeps (df df' : DataFrame) (name c : string)
  (values : list cell) :
  extends_consolidated df ->
  c <> name ->
  set_column df name values = ok df' ->
  get_column df' c = get_column df c.
Proof.
  intros [more [Hc [_ Hr]]] Hne; unfold set_column.
  destruct (Nat.eqb_spec (length values) (length (rows df))) as [Hlen | _];
    [|discriminate].
  cbn [negb].
  destruct (index_of name (columns df)) as [i|] eqn:Hi; intros [= <-];
    unfold get_column, locate; cbn [columns rows append_column].
  - destruct (index_of c (columns df)) as [j|] eqn:Hj; [|reflexivity].
    cbn [bindR ok]; f_equal; rewrite map_map.
    apply map_combine_rows; [exact Hlen|].
    intros r v _; cbn [fst snd].
    apply nth_set_nth_other.
    intros ->; apply index_of_nth in Hi, Hj; congruence.
  - rewrite index_of_app.
    destruct (index_of c (columns df)) as [j|] eqn:Hj.
    + cbn [bindR ok]; f_equal; rewrite map_map.
      apply map_combine_rows; [exact Hlen|].
      intros r v Hin; cbn [fst snd].
      apply app_nth1.
      destruct (Hr r Hin) as [_ ->]; now apply index_of_lt in Hj.
    + cbn [index_of].
      destruct (String.eqb_spec name c) as [-> | _]; [contradiction|].
      reflexivity.
Qed.

Lemma select_rows_flagged (df : DataFrame) (flags : list bool) :
  length flags = length (rows df) ->
  length (rows (select_rows df flags)) = flagged flags.
Proof.
  unfold select_rows, flagged; cbn [rows]; rewrite length_map.
  generalize (rows df) as l; intros l; revert l.
  induction flags as [|b flags IH]; intros [|r l] H; simpl in H;
    try lia; [reflexivity|].
  cbn [combine filter snd]; destruct b; cbn [length];
    rewrite IH by lia; reflexivity.
Qed.

Lemma detect_anomalies_on_scores_eq (scores : list float) (t : float) :
  detect_anomalies_on (map CFloat scores) (YNum t)
  = ok (detect_anomalies scores t).
Proof.
  unfold detect_anomalies_on; now rewrite mapR_to_float_scores.
Qed.

Lemma flags_length (scores : list float) (t : float) :
  length (map CBool (detect_anomalies scores t)) = length scores.
Proof.
  rewrite length_map; unfold detect_anomalies, zscore.
  destruct (feqb (pd_std scores) (Fin 0));
    [apply repeat_length | now rewrite !length_map].
Qed.

Lemma wp_answers_run {W A} (R : forall X, event X -> X -> Prop)
  (h : handler W) (p : prog A) :
  (forall X (ev : event X) (w : W),
      exists x w', h X ev w = (ok x, w') /\ R X ev x) ->
  forall (Q : list exchange -> A -> Prop) (w : W),
    wp_answers R p Q ->
    exists a,
      outcome_of (run h p w) = ok a /\ Q (exchanges h p w) a.
Proof.
  intros Hh; induction p as [a | e | X ev k IH]; intros Q w Hwp.
  - exists a; split; [reflexivity | exact Hwp].
  - destruct Hwp.
  - cbn [wp_answers] in Hwp; cbn [run exchanges].
    destruct (Hh X ev w) as [x [w' [Heq HR]]]; rewrite Heq.
    destruct (IH x _ w' (Hwp x HR)) as [a [Ho HQ]].
    exists a; split; [exact Ho | exact HQ].
Qed.

Lemma wp_answers_lift {A B} (R : forall X, event X -> X -> Prop)
  (r : result A) (a : A) (f : A -> prog B)
  (Q : list exchange -> B -> Prop) :
  r = ok a -> wp_answers R (f a) Q -> wp_answers R (bind (lift r) f) Q.
Proof. intros ->; exact (fun H => H). Qed.

Lemma wp_answers_call {X B} (R : forall X, event X -> X -> Prop)
  (ev : event X) (f : X -> prog B) (Q : list exchange -> B -> Prop) :
  (forall x, R X ev x ->
             wp_answers R (f x) (fun xs b => Q (Answered ev x :: xs) b)) ->
  wp_answers R (bind (call ev) f) Q.
Proof. intros H; exact H. Qed.

Ltac find_exchange :=
  cbn [In]; repeat first [left; reflexivity | right].

(** A cooperative run without a biometric file, with the threshold [t]
    configured: what the indicator answered and what is written. *)
Lemma run_aleis_pipeline_flags (t : float) :
  wp_answers (fun X ev x =>
        biometric_absent X ev x /\ environment X ev x
        /\ threshold_is t X ev x)
    run_aleis_pipeline
    (fun xs _ =>
       exists (scores : list float) (frequency temporal : list cell)
              (weights : yaml) (df : DataFrame) (brief : string),
         In (Answered
               (ComputeLepi (Column frequency) (Scalar (CInt 1))
                  (Column temporal) weights)
               (Column (map CFloat scores))) xs
         /\ length scores = length (rows df)
         /\ In (Answered (ToCsv df output_file) tt) xs
         /\ get_column df "total_updates" = ok frequency
         /\ get_column df "lepi" = ok (map CFloat scores)
         /\ get_column df "anomaly_flag"
            = ok (map CBool (detect_anomalies scores t))
         /\ In (Answered
                  (GenerateBrief
                     (insight_text (flagged (detect_anomalies scores t))))
                  brief) xs).
Proof.
  destruct new_column_names as [Hn1 [Hn2 Hn3]].
  unfold run_aleis_pipeline, load_config.
  apply wp_answers_call; intros [] _.
  apply wp_answers_call; intros config [_ [Hcfg Hthr]].
  destruct Hcfg as (lw & mw & th & t' & H1 & H2 & H3 & H4).
  cbn [threshold_is] in Hthr; unfold config_lookups in Hthr.
  rewrite H1, H2, H3 in Hthr; cbn [bindR ok] in Hthr.
  rewrite H4 in Hthr; injection Hthr as Ht; subst t'.
  eapply wp_answers_lift; [exact H1|].
  eapply wp_answers_lift; [exact H2|].
  eapply wp_answers_lift; [exact H3|].
  eapply wp_answers_lift; [exact H4|].
  apply wp_answers_call; intros enrol_df _.
  apply wp_answers_call; intros demo_df _.
  apply wp_answers_call; intros bio_exists [Habs _].
  cbn in Habs; rewrite (Habs eq_refl); cbn [bind].
  apply wp_answers_call; intros [] _.
  apply wp_answers_call; intros [] _.
  apply wp_answers_call; intros enrol_clean _.
  apply wp_answers_call; intros enrol_df' _.
  apply wp_answers_call; intros demo_clean _.
  apply wp_answers_call; intros demo_df' _.
  cbn [is_empty empty_frame columns negb bind].
  apply wp_answers_call; intros enrol_agg [_ [HE _]].
  destruct (HE eq_refl) as (E & HEne & HEnd & ->); clear HE.
  apply wp_answers_call; intros demo_sum [_ [HD _]].
  destruct (HD eq_refl) as (D & _ & HDnd & ->); clear HD.
  cbn [bind].
  destruct (consolidate_two_extends E D HEne HEnd HDnd)
    as (rows' & Hcons & Hrows & Hext).
  eapply wp_answers_lift; [exact Hcons|].
  apply wp_answers_call; intros [] _.
  apply wp_answers_call; intros [] _.
  eapply wp_answers_lift.
  { apply check_region_coverage_consolidated; [exact Hrows|].
    destruct Hext as [more [_ [_ Hr]]]; intros r Hin; now apply Hr. }
  apply wp_answers_call; intros velocity [_ [Hv _]].
  destruct Hv as (name & values & Hname & Hlen & ->).
  destruct (append_column_extends _ name values Hext Hname Hlen)
    as [Hext1 Hrows1].
  destruct (groupby_transform_extends _ temporal_concentration Hext1)
    as (tcs & Htc & Htclen).
  eapply wp_answers_lift; [exact Htc|].
  destruct (set_column_extends _ "temporal_concentration" tcs Hext1 Hn1
              ltac:(discriminate) Htclen)
    as (df2 & Hset2 & Hext2 & Hrows2 & Hget2).
  eapply wp_answers_lift; [exact Hset2|].
  destruct (get_column_total_updates df2 Hext2) as (freq & Hfreq & Hfreqlen).
  eapply wp_answers_lift; [exact Hfreq|].
  eapply wp_answers_lift; [exact Hget2|].
  apply wp_answers_call; intros lepi [_ [Hl _]].
  destruct Hl as (scores & -> & Hslen).
  destruct (set_column_extends df2 "lepi" (map CFloat scores) Hext2 Hn2
              ltac:(discriminate)
              ltac:(rewrite length_map; congruence))
    as (df3 & Hset3 & Hext3 & Hrows3 & Hget3).
  eapply wp_answers_lift; [exact Hset3|].
  eapply wp_answers_lift; [exact Hget3|].
  eapply wp_answers_lift; [apply detect_anomalies_on_scores_eq|].
  set (flags := detect_anomalies scores t).
  assert (length (map CBool flags) = length (rows df3)) as Hflen
      by (unfold flags; rewrite flags_length; congruence).
  destruct (set_column_extends df3 "anomaly_flag" (map CBool flags) Hext3 Hn3
              ltac:(discriminate) Hflen)
    as (df4 & Hset4 & Hext4 & Hrows4 & Hget4).
  eapply wp_answers_lift; [exact Hset4|].
  apply wp_answers_call; intros [] _.
  apply wp_answers_call; intros [] _.
  eapply wp_answers_lift; [exact Hget4|].
  eapply wp_answers_lift; [apply as_mask_flags|].
  apply wp_answers_call; intros policy_brief _.
  apply wp_answers_call; intros [] _.
  intros [] _.
  assert (get_column df4 "lepi" = ok (map CFloat scores)) as Hlepi.
  { rewrite (set_column_keeps df3 df4 "anomaly_flag" "lepi" _ Hext3
               ltac:(discriminate) Hset4).
    exact Hget3. }
  assert (get_column df4 "total_updates" = ok freq) as Hfreq4.
  { rewrite (set_column_keeps df3 df4 "anomaly_flag" "total_updates" _ Hext3
               ltac:(discriminate) Hset4).
    rewrite (set_column_keeps df2 df3 "lepi" "total_updates" _ Hext2
               ltac:(discriminate) Hset3).
    exact Hfreq. }
  rewrite select_rows_flagged
    by (rewrite length_map in Hflen; congruence).
  exists scores, freq, tcs, lw, df4, policy_brief.
  split; [find_exchange|].
  split; [rewrite length_map in Hflen; unfold flags in Hflen;
          rewrite detect_anomalies_one_flag_each in Hflen; congruence|].
  split; [find_exchange|].
  split; [exact Hfreq4|].
  split; [exact Hlepi|].
  split; [exact Hget4 | find_exchange].
Qed.

(** X18.  In a cooperative world without a biometric file whose configured
    threshold is the number [t], the run calls [compute_lepi] on the
    [total_updates] column of the table, and the table it writes holds in
    [lepi] the scores that call answered, one per row, and in [anomaly_flag]
    exactly the flags [detect_anomalies] gives for the whole series of those
    scores at [t]; the report sentence carries the number of flagged rows. *)
Theorem written_flags_are_detected {W} (h : handler W) (w : W) (t : float) :
  (forall X (ev : event X) (w0 : W),
      exists x w',
        h X ev w0 = (ok x, w')
        /\ biometric_absent X ev x /\ environment X ev x
        /\ threshold_is t X ev x) ->
  exists (scores : list float) (frequency temporal : list cell)
         (weights : yaml) (df : DataFrame) (brief : string),
    In (Answered
          (ComputeLepi (Column frequency) (Scalar (CInt 1))
             (Column temporal) weights)
          (Column (map CFloat scores)))
      (exchanges h run_aleis_pipeline w)
    /\ length scores = length (rows df)
    /\ In (Answered (ToCsv df output_file) tt)
         (exchanges h run_aleis_pipeline w)
    /\ get_column df "total_updates" = ok frequency
    /\ get_column df "lepi" = ok (map CFloat scores)
    /\ get_column df "anomaly_flag"
       = ok (map CBool (detect_anomalies scores t))
    /\ In (Answered
             (GenerateBrief
                (insight_text (flagged (detect_anomalies scores t))))
             brief)
         (exchanges h run_aleis_pipeline w).
Proof.
  intros Hh.
  destruct (wp_answers_run _ h run_aleis_pipeline Hh _ w
              (run_aleis_pipeline_flags t))
    as [_ [_ Hq]].
  exact Hq.
Qed.

Lemma scoring_world_threshold :
  forall X (ev : event X) (w0 : unit),
  exists x w',
    scoring_world X ev w0 = (ok x, w')
    /\ biometric_absent X ev x /\ environment X ev x
    /\ threshold_is (Fin 2.5) X ev x.
Proof.
  intros X ev w0.
  destruct (scenario_world_cooperative X ev w0) as [x [w' [Heq [Hb He]]]].
  destruct ev;
    try (exists x, w'; cbn [scoring_world];
         split; [exact Heq | split; [exact Hb | split; [exact He |]]];
         try exact I;
         cbn [scenario_world] in Heq; injection Heq as <- _; reflexivity).
  eexists; eexists; split; [reflexivity|].
  split; [exact I | split; [| exact I]].
  exists (operand_scores freq); split; [reflexivity|].
  destruct freq; [exact I | apply length_map].
Qed.

(** In [scoring_world] the scores differ from row to row. *)
Lemma scoring_world_scores :
  exists (frequency temporal : operand) (weights : yaml),
    In (Answered (ComputeLepi frequency (Scalar (CInt 1)) temporal weights)
          (Column [CFloat (Fin (IZR 100)); CFloat (Fin (IZR 120))]))
      (exchanges scoring_world run_aleis_pipeline tt).
Proof.
  eexists; eexists; eexists.
  unfold run_aleis_pipeline, load_config, call.
  cbn -[IZR temporal_concentration detect_anomalies].
  repeat first [left; reflexivity | right].
Qed.

Lemma written_flags_are_detected_witness :
  exists (scores : list float) (frequency temporal : list cell)
         (weights : yaml) (df : DataFrame) (brief : string),
    In (Answered
          (ComputeLepi (Column frequency) (Scalar (CInt 1))
             (Column temporal) weights)
          (Column (map CFloat scores)))
      (exchanges scoring_world run_aleis_pipeline tt)
    /\ length scores = length (rows df)
    /\ In (Answered (ToCsv df output_file) tt)
         (exchanges scoring_world run_aleis_pipeline tt)
    /\ get_column df "total_updates" = ok frequency
    /\ get_column df "lepi" = ok (map CFloat scores)
    /\ get_column df "anomaly_flag"
       = ok (map CBool (detect_anomalies scores (Fin 2.5)))
    /\ In (Answered
             (GenerateBrief
                (insight_text
                   (flagged (detect_anomalies scores (Fin 2.5)))))
             brief)
         (exchanges scoring_world run_aleis_pipeline tt).
Proof.
  apply (written_flags_are_detected scoring_world tt (Fin 2.5)).
  exact scoring_world_threshold.
Defined.

(** ** Runs with a biometric source *)

Lemma append_column_wide (df : DataFrame) (name : string)
  (values : list cell) :
  extends_wide df ->
  length values = length (rows df) ->
  extends_wide (append_column df name values)
  /\ length (rows (append_column df name values)) = length (rows df).
Proof.
  intros [more [Hc Hr]] Hlen; split.
  - exists (more ++ [name]); cbn [append_column columns rows].
    rewrite Hc, app_assoc; split; [reflexivity|].
    intros r Hin.
    apply in_combine_rows in Hin as [r0 [v [Hin ->]]]; cbn [fst snd].
    destruct (Hr r0 Hin) as [Hw Hl]; split.
    + now apply wide_row_append.
    + rewrite !length_app, Hl, Hc, !length_app; simpl; lia.
  - cbn [append_column rows].
    now apply (combine_rows_length _ _ (fun p => fst p ++ [snd p])).
Qed.

Lemma set_column_wide (df : DataFrame) (name : string) (values : list cell) :
  extends_wide df ->
  ~ In name consolidated_cols ->
  length values = length (rows df) ->
  exists df',
    set_column df name values = ok df'
    /\ extends_wide df'
    /\ length (rows df') = length (rows df)
    /\ get_column df' name = ok values.
Proof.
  intros Hext Hnew Hlen; unfold set_column.
  rewrite Hlen, Nat.eqb_refl; cbn [negb].
  destruct (index_of name (columns df)) as [i|] eqn:Hi.
  - eexists; split; [reflexivity|].
    destruct Hext as [more [Hc Hr]].
    assert (6 <= i)%nat as Hi6
        by (rewrite Hc in Hi; now apply index_of_new_column in Hi).
    pose proof (index_of_lt _ _ _ Hi) as Hlt.
    split; [|split].
    + exists more; cbn [columns rows]; split; [exact Hc|].
      intros r Hin.
      apply in_combine_rows in Hin as [r0 [v [Hin ->]]]; cbn [fst snd].
      destruct (Hr r0 Hin) as [Hw Hl]; split.
      * now apply wide_row_set_nth.
      * now rewrite set_nth_length.
    + cbn [rows].
      now apply (combine_rows_length _ _ (fun p => set_nth i (snd p) (fst p))).
    + unfold get_column, locate; cbn [columns rows]; rewrite Hi; cbn [bindR ok].
      f_equal; rewrite map_map.
      apply map_combine_values; [exact Hlen|].
      intros r v Hin; cbn [fst snd].
      apply nth_set_nth; destruct (Hr r Hin) as [_ ->]; exact Hlt.
  - eexists; split; [reflexivity|].
    destruct (append_column_wide df name values Hext Hlen) as [Hext' Hrows].
    split; [exact Hext' | split; [exact Hrows|]].
    destruct Hext as [more [Hc Hr]].
    unfold get_column, locate; cbn [append_column columns rows].
    rewrite index_of_app, Hi; cbn [index_of].
    rewrite String.eqb_refl; cbn [option_map bindR ok].
    f_equal; rewrite map_map.
    apply map_combine_values; [exact Hlen|].
    intros r v Hin; cbn [fst snd].
    destruct (Hr r Hin) as [_ Hl].
    rewrite Nat.add_0_r, <- Hl, nth_middle; reflexivity.
Qed.

Lemma get_column_total_updates_wide (df : DataFrame) :
  extends_wide df ->
  exists cs,
    get_column df "total_updates" = ok cs /\ length cs = length (rows df).
Proof.
  intros [more [Hc _]]; unfold get_column, locate; rewrite Hc.
  eexists; split; [reflexivity | apply length_map].
Qed.

Lemma groupby_transform_wide (df : DataFrame) (f : series -> float) :
  extends_wide df ->
  exists cs,
    groupby_transform df ["state"; "district"]%string "total_updates" f
    = ok cs
    /\ length cs = length (rows df).
Proof.
  intros [more [Hc Hr]]; unfold groupby_transform, locate_all, locate.
  rewrite Hc; cbn [consolidated_cols key_cols app mapR index_of String.eqb
                     Ascii.eqb Bool.eqb option_map bindR ok].
  apply mapR_total; intros r Hin.
  destruct (Hr r Hin) as [Hw _].
  destruct (wide_row_cells r Hw) as [s [d [y [m [a [b H]]]]]].
  destruct H as [H0 [H1 _]].
  unfold key_of at 1; cbn [map]; rewrite H0, H1; cbn [existsb isna orb].
  match goal with
  | |- context [mapR ?g ?l] =>
      destruct (mapR_total g l) as [vals [Hv _]]
  end.
  - intros r' Hin'; apply filter_In in Hin' as [Hin' _].
    destruct (Hr r' Hin') as [Hw' _].
    destruct (wide_row_cells r' Hw') as [? [? [? [? [? [b' H']]]]]].
    destruct H' as [_ [_ [_ [_ [_ H5]]]]]; rewrite H5.
    eexists; reflexivity.
  - rewrite Hv; eexists; reflexivity.
Qed.

Lemma check_region_coverage_wide (more : list string)
  (rows' : list (list cell)) :
  rows' <> [] ->
  (forall r, In r rows' -> wide_row r) ->
  check_region_coverage (mkDataFrame (consolidated_cols ++ more) rows')
    "district"
  = ok tt.
Proof.
  intros Hne Hw; unfold check_region_coverage, get_column.
  cbn [locate consolidated_cols key_cols app index_of String.eqb Ascii.eqb
         Bool.eqb option_map columns rows bindR ok].
  destruct rows' as [|r rows']; [easy|].
  destruct (wide_row_cells r (Hw r (or_introl eq_refl)))
    as [s [d [y [m [a [b [_ [H1 _]]]]]]]].
  unfold nunique; cbn [map filter]; rewrite H1; cbn [isna negb].
  destruct (unique (CStr d :: _)) eqn:Hu;
    [now apply unique_nonempty in Hu | reflexivity].
Qed.

Lemma consolidated_row3_wide (E D B : list (region_month * Z))
  (k : region_month) :
  wide_row (consolidated_row3 E D B k)
  /\ length (consolidated_row3 E D B k) = 7%nat.
Proof.
  split.
  - exists k, (count_of k E), (count_of k D), [CInt (count_of k B)].
    reflexivity.
  - unfold consolidated_row3; rewrite length_app, key_cells_length.
    reflexivity.
Qed.

(** The consolidated table of three aggregates that have rows. *)
Lemma consolidate_three_wide (E D B : list (region_month * Z)) :
  NoDup (map fst E) -> NoDup (map fst D) -> NoDup (map fst B) ->
  B <> [] ->
  exists rows',
    consolidate_three E D B
    = ok (mkDataFrame (consolidated_cols ++ ["biometric_updates"%string])
            rows')
    /\ rows' <> []
    /\ extends_wide
         (mkDataFrame (consolidated_cols ++ ["biometric_updates"%string])
            rows').
Proof.
  intros HE HD HB HBne.
  destruct (consolidate_three_rows E D B HE HD HB HBne)
    as (rows' & keys & Heq & Hperm & _ & Hin).
  exists rows'; split; [exact Heq|].
  assert (forall r, In r rows' -> wide_row r /\ length r = 7%nat) as Hrows.
  { intros r Hr.
    apply (Permutation_in _ Hperm), in_map_iff in Hr as [k [<- _]].
    apply consolidated_row3_wide. }
  split.
  - intros ->; apply Permutation_nil, map_eq_nil in Hperm; subst keys.
    destruct B as [|b B]; [contradiction|].
    apply (Hin (fst b)); right; right; now left.
  - exists ["biometric_updates"%string]; cbn [columns rows].
    split; [reflexivity | exact Hrows].
Qed.

Lemma wp_bind_bind_call {X A B} (R : forall X, event X -> X -> Prop)
  (ev : event X) (g : X -> prog A) (f : A -> prog B)
  (Q : list call_record -> B -> Prop) :
  (forall x, R X ev x ->
             wp R (bind (g x) f) (fun tr b => Q (Called ev :: tr) b)) ->
  wp R (bind (bind (call ev) g) f) Q.
Proof. intros H; exact H. Qed.

(** A run in a cooperative world with a biometric file issues the calls of a
    three-source run and returns. *)
Lemma run_aleis_pipeline_three_sources :
  wp (fun X ev x => biometric_present X ev x /\ environment X ev x)
    run_aleis_pipeline
    (fun tr _ =>
       map (fun c => event_name (called_event c)) tr = three_source_calls
       /\ Forall three_source_step tr).
Proof.
  destruct new_column_names as [Hn1 [Hn2 Hn3]].
  unfold run_aleis_pipeline, load_config.
  apply wp_bind_call; intros [] _.
  apply wp_bind_call; intros config [_ Hcfg].
  destruct Hcfg as (lw & mw & th & t & H1 & H2 & H3 & H4).
  eapply wp_bind_lift; [exact H1|].
  eapply wp_bind_lift; [exact H2|].
  eapply wp_bind_lift; [exact H3|].
  eapply wp_bind_lift; [exact H4|].
  (* datasets *)
  apply wp_bind_call; intros enrol_df _.
  apply wp_bind_call; intros demo_df _.
  apply wp_bind_call; intros bio_exists [Hex _].
  cbn in Hex; rewrite (Hex eq_refl).
  apply wp_bind_call; intros bio_df [Hbio _].
  cbn in Hbio; specialize (Hbio eq_refl).
  apply wp_bind_call; intros [] _.
  apply wp_bind_call; intros [] _.
  (* cleaning *)
  apply wp_bind_call; intros enrol_clean _.
  apply wp_bind_call; intros enrol_df' _.
  apply wp_bind_call; intros demo_clean _.
  apply wp_bind_call; intros demo_df' _.
  rewrite Hbio; cbn [negb].
  apply wp_bind_bind_call; intros bio_clean [Hclean _].
  cbn in Hclean; specialize (Hclean Hbio).
  apply wp_bind_call; intros bio_df' [Hdated _].
  cbn in Hdated; specialize (Hdated Hclean).
  (* aggregation *)
  apply wp_bind_call; intros enrol_agg [_ HE].
  destruct (HE eq_refl) as (E & HEne & HEnd & ->); clear HE.
  apply wp_bind_call; intros demo_sum [_ HD].
  destruct (HD eq_refl) as (D & _ & HDnd & ->); clear HD.
  rewrite Hdated; cbn [negb].
  apply wp_bind_bind_call; intros bio_sum [_ HB].
  destruct (HB eq_refl) as (B & HBne & HBnd & ->); clear HB.
  cbn [bind].
  (* consolidation *)
  destruct (consolidate_three_wide E D B HEnd HDnd HBnd HBne)
    as (rows' & Hcons & Hrows & Hext).
  eapply wp_bind_lift; [exact Hcons|].
  apply wp_bind_call; intros [] _.
  apply wp_bind_call; intros [] _.
  eapply wp_bind_lift.
  { apply check_region_coverage_wide; [exact Hrows|].
    destruct Hext as [more [_ Hr]]; intros r Hin; now apply Hr. }
  (* features *)
  apply wp_bind_call; intros velocity [_ Hv].
  destruct Hv as (name & values & Hname & Hlen & ->).
  destruct (append_column_wide _ name values Hext Hlen) as [Hext1 Hrows1].
  destruct (groupby_transform_wide _ temporal_concentration Hext1)
    as (tcs & Htc & Htclen).
  eapply wp_bind_lift; [exact Htc|].
  destruct (set_column_wide _ "temporal_concentration" tcs Hext1 Hn1 Htclen)
    as (df2 & Hset2 & Hext2 & Hrows2 & Hget2).
  eapply wp_bind_lift; [exact Hset2|].
  (* indicator *)
  destruct (get_column_total_updates_wide df2 Hext2)
    as (freq & Hfreq & Hfreqlen).
  eapply wp_bind_lift; [exact Hfreq|].
  eapply wp_bind_lift; [exact Hget2|].
  apply wp_bind_call; intros lepi [_ Hl].
  destruct Hl as (scores & -> & Hslen).
  destruct (set_column_wide df2 "lepi" (map CFloat scores) Hext2 Hn2
              ltac:(rewrite length_map; congruence))
    as (df3 & Hset3 & Hext3 & Hrows3 & Hget3).
  eapply wp_bind_lift; [exact Hset3|].
  (* anomaly detection *)
  eapply wp_bind_lift; [exact Hget3|].
  destruct (detect_anomalies_on_scores scores t) as (flags & Hdet & Hflen).
  eapply wp_bind_lift; [exact Hdet|].
  destruct (set_column_wide df3 "anomaly_flag" (map CBool flags) Hext3 Hn3
              ltac:(rewrite length_map; congruence))
    as (df4 & Hset4 & Hext4 & Hrows4 & Hget4).
  eapply wp_bind_lift; [exact Hset4|].
  (* outputs *)
  apply wp_bind_call; intros [] _.
  apply wp_bind_call; intros [] _.
  eapply wp_bind_lift; [exact Hget4|].
  eapply wp_bind_lift; [apply as_mask_flags|].
  apply wp_bind_call; intros policy_brief _.
  apply wp_bind_call; intros [] _.
  intros [] _.
  split; [reflexivity|].
  repeat (apply Forall_cons || apply Forall_nil); try exact I.
  apply set_column_columns in Hset2 as [_ K2].
  apply set_column_columns in Hset3 as [_ K3].
  apply set_column_columns in Hset4 as [_ K4].
  cbn [three_source_step called_event].
  repeat split; apply K4, K3, K2; reflexivity.
Qed.

(** X19.  In a world that has a biometric file with rows, never raises, and
    whose modules answer as the spec describes them, the run returns
    normally after the calls of a three-source run, the biometric load,
    cleaning, dating and aggregation among them, and the table it writes has
    the columns [enrolments], [total_updates] and [biometric_updates]. *)
Theorem biometric_present_run_completes {W} (h : handler W) (w : W) :
  (forall X (ev : event X) (w0 : W),
      exists x w',
        h X ev w0 = (ok x, w')
        /\ biometric_present X ev x /\ environment X ev x) ->
  outcome_of (run h run_aleis_pipeline w) = ok tt
  /\ map (fun c => event_name (called_event c))
       (trace_of (run h run_aleis_pipeline w))
     = three_source_calls
  /\ Forall three_source_step (trace_of (run h run_aleis_pipeline w)).
Proof.
  intros Hh.
  destruct (wp_run _ h run_aleis_pipeline Hh _ w
              run_aleis_pipeline_three_sources) as [[] [Hout [Hnames Hsteps]]].
  auto.
Qed.

Lemma biometric_world_present :
  forall X (ev : event X) (w0 : unit),
  exists x w',
    biometric_world X ev w0 = (ok x, w')
    /\ biometric_present X ev x /\ environment X ev x.
Proof.
  intros X ev w0.
  destruct (scenario_world_cooperative X ev w0) as [x [w' [Heq [_ He]]]].
  destruct ev; cbn [biometric_world scenario_world] in *;
    try (exists x, w'; split; [exact Heq | split; [|exact He]]);
    cbn [biometric_present]; auto.
  - exists true, w0; repeat split.
  - injection Heq as <- _; intros _; reflexivity.
  - injection Heq as <- _; trivial.
  - injection Heq as <- _; trivial.
Qed.

Lemma biometric_present_run_completes_witness :
  outcome_of (run biometric_world run_aleis_pipeline tt) = ok tt
  /\ map (fun c => event_name (called_event c))
       (trace_of (run biometric_world run_aleis_pipeline tt))
     = three_source_calls
  /\ Forall three_source_step
       (trace_of (run biometric_world run_aleis_pipeline tt)).
Proof.
  apply (biometric_present_run_completes biometric_world tt).
  exact biometric_world_present.
Defined.
